(** * Uniform-power triac firing delays: [tools/scripts/compute_fan_delays.py]

    The script inverts the conduction-power curve of a phase-controlled triac
    by bisection and turns the resulting phase angles into microsecond delays.

    Numeric model.  The script is embedded twice.  In the first embedding
    Python's [float] is modelled by the real numbers of the Standard Library:
    [math.pi] is [PI], [math.sin] is [sin], and the float operations
    [+ - * /] are the exact real ones; it carries the quantitative results,
    stated on ranges of arguments where the double arithmetic stays finite.
    In the second embedding, the module [Doubles], [float] is the primitive
    binary64 float, with its infinities and NaN, and [math.sin] is a
    parameter; it carries what holds of the code for every double.
    Python's [int] is [Z]; an [int] used in float arithmetic is injected with
    [IZR] in the first embedding and rounded to the nearest double in the
    second.  [round] with one argument is round-half-to-even to an integer.
    A division whose divisor is a program variable raises
    [ZeroDivisionError] on a zero divisor; [round] raises [ValueError] on a
    NaN and [OverflowError] on an infinity; errors are modelled in the error
    monad [result].  Text is modelled with the Standard Library's strings;
    the decimal rendering of floats is not modelled. *)

From Stdlib Require Import Reals Lra Lia ZArith List Psatz QArith Qreals Qround.
From Stdlib Require Ascii String DecimalString DecimalZ DecimalPos.
From Stdlib Require PrimFloat FloatOps SpecFloat.
Import ListNotations.

Open Scope R_scope.

(** ** Exceptions and the error monad *)

Inductive exn : Set :=
| ZeroDivisionError
| ValueError
| OverflowError.

Inductive result (A : Type) : Type :=
| Ok (a : A)
| Raise (e : exn).

Arguments Ok {A} a.
Arguments Raise {A} e.

Definition bind {A B : Type} (m : result A) (k : A -> result B) : result B :=
  match m with
  | Ok a => k a
  | Raise e => Raise e
  end.

Notation "x <- m ;; k" := (bind m (fun x => k))
  (at level 61, m at next level, right associativity).

(** ** Python primitives *)

(** [x / y] on floats with a divisor that may be zero. *)
Definition py_div (x y : R) : result R :=
  if Req_dec_T y 0 then Raise ZeroDivisionError else Ok (x / y).

(** [range(a, b)]: the integers [a, a+1, ..., b-1], empty when [b <= a]. *)
Definition py_range (a b : Z) : list Z :=
  map (fun i => (a + Z.of_nat i)%Z) (seq 0 (Z.to_nat (b - a))).

(** [round(x)]: nearest integer, ties to the even neighbour. *)
Definition py_round (x : R) : Z :=
  let f := Zfloor x in
  let d := x - IZR f in
  if Rlt_dec d (1 / 2) then f
  else if Rgt_dec d (1 / 2) then (f + 1)%Z
  else if Z.even f then f else (f + 1)%Z.

(** ** Module constants *)

Definition HALF_CYCLE_US : R := 10000.
Definition MIN_DELAY_US : Z := 50.
Definition MAX_DELAY_US : Z := 9500.
Definition N : Z := 9.
Definition MIN_P : R := 5 / 100.

(** ** The power function and its inversion *)

(** [P_of_alpha(alpha)]:
    [1.0 - alpha/math.pi + math.sin(2*alpha)/(2.0*math.pi)]. *)
Definition P_of_alpha (alpha : R) : R :=
  1 - alpha / PI + sin (2 * alpha) / (2 * PI).

(** The body of the [for _ in range(50)] loop of [alpha_from_P], acting on
    the pair [(lo, hi)]. *)
Definition bisect_step (P : R) (st : R * R) : R * R :=
  let '(lo, hi) := st in
  let mid := (lo + hi) / 2 in
  let p_mid := P_of_alpha mid in
  if Rgt_dec p_mid P then (mid, hi) else (lo, mid).

(** The loop itself, run over the first [n] elements of the range; the loop
    variable is not used by the body. *)
Definition bisect_loop (P : R) (n : nat) (st : R * R) : R * R :=
  fold_left (fun s (_ : nat) => bisect_step P s) (seq 0 n) st.

(** [alpha_from_P(P)]. *)
Definition alpha_from_P (P : R) : R :=
  let '(lo, hi) := bisect_loop P 50 (0, PI) in
  (lo + hi) / 2.

(** ** The level table *)

(** The clamp of [compute_delays]: two successive [if]s on the float. *)
Definition clamp_float (delay_us : R) : R :=
  let delay_us :=
    if Rlt_dec delay_us (IZR MIN_DELAY_US) then IZR MIN_DELAY_US else delay_us in
  let delay_us :=
    if Rgt_dec delay_us (IZR MAX_DELAY_US) then IZR MAX_DELAY_US else delay_us in
  delay_us.

(** One iteration of the loop of [compute_delays]: the value appended for
    [level]. *)
Definition level_delay (levels : Z) (min_power half_cycle_us : R) (level : Z)
  : result Z :=
  step <- py_div (1 - min_power) (IZR (levels - 1)) ;;
  let P := min_power + IZR (level - 1) * step in
  let alpha := alpha_from_P P in
  let delay_us := alpha * half_cycle_us / PI in
  Ok (py_round (clamp_float delay_us)).

(** The loop of [compute_delays] over the remaining levels, with the list
    [delays] built so far. *)
Fixpoint compute_delays_loop (levels : Z) (min_power half_cycle_us : R)
  (todo : list Z) (delays : list Z) : result (list Z) :=
  match todo with
  | [] => Ok delays
  | level :: rest =>
      d <- level_delay levels min_power half_cycle_us level ;;
      compute_delays_loop levels min_power half_cycle_us rest (delays ++ [d])
  end.

(** [compute_delays(levels, min_power, half_cycle_us)]. *)
Definition compute_delays (levels : Z) (min_power half_cycle_us : R)
  : result (list Z) :=
  compute_delays_loop levels min_power half_cycle_us
    (py_range 1 (levels + 1)) [].

(** ** The percent table *)

(** The clamp of [format_delay_from_percent_array]: two successive [if]s on
    the rounded integer. *)
Definition clamp_int (delay_us : Z) : Z :=
  let delay_us :=
    if (delay_us <? MIN_DELAY_US)%Z then MIN_DELAY_US else delay_us in
  let delay_us :=
    if (delay_us >? MAX_DELAY_US)%Z then MAX_DELAY_US else delay_us in
  delay_us.

(** One iteration of the loop of [format_delay_from_percent_array]: the value
    appended to [vals] for the integer [P]. *)
Definition percent_delay (half_cycle_us : R) (P : Z) : Z :=
  let alpha := alpha_from_P (IZR P / 100) in
  let delay_us := py_round (alpha * half_cycle_us / PI) in
  clamp_int delay_us.

(** The list [vals] that [format_delay_from_percent_array(half_cycle_us)]
    builds over [range(101)] before printing it as a C array. *)
Definition percent_vals (half_cycle_us : R) : list Z :=
  fold_left (fun vals P => vals ++ [percent_delay half_cycle_us P])
    (py_range 0 101) [].

(** * Definitions used by the proofs *)

(** What the loop of [alpha_from_P] keeps true of [(lo, hi)] after [n]
    iterations for the target [P]. *)
Definition bracket (P : R) (n : nat) (st : R * R) : Prop :=
  0 <= fst st /\ fst st <= snd st /\ snd st <= PI /\
  snd st - fst st = PI / 2 ^ n /\
  (fst st = 0 \/ P < P_of_alpha (fst st)) /\
  (snd st = PI \/ P_of_alpha (snd st) <= P).

(** The target power of [level]: the expression [compute_delays] assigns to
    [P], with the division carried out. *)
Definition level_power (levels : Z) (min_power : R) (level : Z) : R :=
  min_power + IZR (level - 1) * ((1 - min_power) / IZR (levels - 1)).

(** The value [compute_delays] appends for [level] when the division
    succeeds. *)
Definition level_value (levels : Z) (min_power half_cycle_us : R) (level : Z) : Z :=
  py_round (clamp_float
    (alpha_from_P (level_power levels min_power level) * half_cycle_us / PI)).

(** Orders on a table, read by index: entry [i] is the delay of level
    [i + 1]. *)
Definition non_increasing (l : list Z) : Prop :=
  forall (i j : nat) (di dj : Z),
    (i <= j)%nat -> nth_error l i = Some di -> nth_error l j = Some dj ->
    (dj <= di)%Z.

Definition non_decreasing (l : list Z) : Prop :=
  forall (i j : nat) (di dj : Z),
    (i <= j)%nat -> nth_error l i = Some di -> nth_error l j = Some dj ->
    (di <= dj)%Z.

Definition strictly_decreasing (l : list Z) : Prop :=
  forall (i j : nat) (di dj : Z),
    (i < j)%nat -> nth_error l i = Some di -> nth_error l j = Some dj ->
    (dj < di)%Z.

(** A delay inside the clamp bounds. *)
Definition in_delay_range (d : Z) : Prop :=
  (MIN_DELAY_US <= d <= MAX_DELAY_US)%Z.

(** The Angle Solver as the specification words it: [n] iterations left on
    the bracket [[lo, hi]], then the midpoint. *)
Fixpoint bisect_spec (P : R) (n : nat) (lo hi : R) : R :=
  match n with
  | O => (lo + hi) / 2
  | S m =>
      let mid := (lo + hi) / 2 in
      let p_mid := P_of_alpha mid in
      if Rgt_dec p_mid P then bisect_spec P m mid hi else bisect_spec P m lo mid
  end.

(** * Rational enclosures

    Values of the curve at rational multiples of [PI] are enclosed between
    rationals: [PI] by the Machin-like series for [2 atan (1/3) + atan (1/7)],
    [sin] by its alternating Taylor sums, evaluated in fixed point on [Z] with
    every step rounded outwards. *)

Module Enclosure.

(** Fixed-point numbers: the integer [z] stands for [z / scale]. *)
Definition scale : Z := 1000000000000000.

(** Division rounded up, for a positive divisor. *)
Definition cdiv (a b : Z) : Z := ((a + b - 1) / b)%Z.

(** The factor [(2j+2)(2j+3)] between consecutive Taylor terms of [sin],
    times [scale]. *)
Definition zden (j : nat) : Z :=
  ((2 * Z.of_nat j + 2) * (2 * Z.of_nat j + 3) * scale)%Z.

(** Square of a fixed-point number, rounded down and up. *)
Definition zsq_lo (x : Z) : Z := (x * x / scale)%Z.
Definition zsq_hi (x : Z) : Z := cdiv (x * x) scale.

(** [x ^ (2k+1) / (2k+1)!], rounded down and up at every step. *)
Fixpoint zterm_lo (x2 x : Z) (k : nat) : Z :=
  match k with
  | O => x
  | S j => (zterm_lo x2 x j * x2 / zden j)%Z
  end.

Fixpoint zterm_hi (x2 x : Z) (k : nat) : Z :=
  match k with
  | O => x
  | S j => cdiv (zterm_hi x2 x j * x2) (zden j)
  end.

(** Alternating Taylor sums of [sin] to index [n] for an argument in
    [[xl, xu]]. *)
Fixpoint sinz_lo (xl xu : Z) (n : nat) : Z :=
  match n with
  | O => zterm_lo (zsq_lo xl) xl 0
  | S m => (sinz_lo xl xu m +
            (if Nat.even (S m) then zterm_lo (zsq_lo xl) xl (S m)
             else - zterm_hi (zsq_hi xu) xu (S m)))%Z
  end.

Fixpoint sinz_hi (xl xu : Z) (n : nat) : Z :=
  match n with
  | O => zterm_hi (zsq_hi xu) xu 0
  | S m => (sinz_hi xl xu m +
            (if Nat.even (S m) then zterm_hi (zsq_hi xu) xu (S m)
             else - zterm_lo (zsq_lo xl) xl (S m)))%Z
  end.

(** The unsigned Taylor term. *)
Definition sterm (x : R) (k : nat) : R := x ^ (2 * k + 1) / INR (fact (2 * k + 1)).

(** Powers in [Q] by a natural exponent. *)
Fixpoint qpow (x : Q) (n : nat) : Q :=
  match n with
  | O => 1%Q
  | S m => (x * qpow x m)%Q
  end.

(** The series of [PI / 4 = 2 atan (1/3) + atan (1/7)]: term [i] and the
    partial sums. *)
Definition qratan (x : Q) (n : nat) : Q :=
  (qpow x (2 * n + 1) / inject_Z (Z.of_nat (2 * n + 1)))%Q.

Definition machin_term (i : nat) : Q :=
  ((if Nat.even i then 1 else -1) * (2 * qratan (1 # 3) i + qratan (1 # 7) i))%Q.

Fixpoint machin_sum (n : nat) : Q :=
  match n with
  | O => machin_term 0
  | S m => (machin_sum m + machin_term (S m))%Q
  end.

(** Eleven decimals of [PI], below and above. *)
Definition pi_lo : Q := 314159265358 # 100000000000.
Definition pi_hi : Q := 314159265359 # 100000000000.

(** Enclosure of [sin (PI * s)] for [0 <= s <= 1]. *)
Definition sinpi_lo (s : Q) : Q :=
  (inject_Z (sinz_lo (Qfloor (pi_lo * s * inject_Z scale))
                     (Qceiling (pi_hi * s * inject_Z scale)) (2 * 4 + 1))
   / inject_Z scale)%Q.
Definition sinpi_hi (s : Q) : Q :=
  (inject_Z (sinz_hi (Qfloor (pi_lo * s * inject_Z scale))
                     (Qceiling (pi_hi * s * inject_Z scale)) (2 * (4 + 1)))
   / inject_Z scale)%Q.

(** Enclosure of [sin (2 * (PI * q))] for [0 <= q <= 1]. *)
Definition sin2_lo (q : Q) : Q :=
  if Qle_bool q (1 # 2) then sinpi_lo (2 * q) else (- sinpi_hi (2 * q - 1))%Q.
Definition sin2_hi (q : Q) : Q :=
  if Qle_bool q (1 # 2) then sinpi_hi (2 * q) else (- sinpi_lo (2 * q - 1))%Q.

(** Enclosure of [v / (2 * PI)] from one of [v]. *)
Definition div2pi_lo (v : Q) : Q :=
  if Qle_bool 0 v then (v / (2 * pi_hi))%Q else (v / (2 * pi_lo))%Q.
Definition div2pi_hi (v : Q) : Q :=
  if Qle_bool 0 v then (v / (2 * pi_lo))%Q else (v / (2 * pi_hi))%Q.

(** Enclosure of [P_of_alpha (PI * q)] for [0 <= q <= 1]. *)
Definition P_lo (q : Q) : Q := (1 - q + div2pi_lo (sin2_lo q))%Q.
Definition P_hi (q : Q) : Q := (1 - q + div2pi_hi (sin2_hi q))%Q.

(** ** Pinning down a rounded delay

    For a rational target [p], half cycle [hc] and integer [n], the test
    checks that the power at the angle of delay [n - 1/2 + 1/1000] is above
    [p] and the power at the angle of delay [n + 1/2 - 1/1000] is at most [p];
    the bisection result then rounds to [n]. *)

Definition delay_check (p hc : Q) (n : Z) : bool :=
  let qa := ((inject_Z n - (1 # 2) + (1 # 1000)) / hc)%Q in
  let qb := ((inject_Z n + (1 # 2) - (1 # 1000)) / hc)%Q in
  (Qle_bool 1 hc && Qle_bool hc 1000000 &&
   Qle_bool 0 qa && Qle_bool qa 1 && Qle_bool 0 qb && Qle_bool qb 1 &&
   negb (Qle_bool (P_lo qa) p) && Qle_bool (P_hi qb) p)%bool.

End Enclosure.

(** * The rest of the script *)

(** ** The half cycle and frequency of [main]

    [main] takes [args.half_cycle_us] when it is given and derives the
    frequency used in the output name from it; otherwise it derives the half
    cycle from [args.freq].  The pair returned is
    [(half_cycle_us, freq_for_name)]. *)
Definition main_cycle (freq : R) (half_cycle_us : option R) : result (R * R) :=
  match half_cycle_us with
  | Some hc =>
      freq_for_name <- py_div 1 (2 * hc * (1 / 1000000)) ;;
      Ok (hc, freq_for_name)
  | None =>
      hc <- py_div 1000000 (2 * freq) ;;
      Ok (hc, freq)
  end.

(** The [delays] of [main]: the cycle, then
    [compute_delays(N, MIN_P, half_cycle_us)]. *)
Definition main_delays (freq : R) (half_cycle_us : option R) : result (list Z) :=
  c <- main_cycle freq half_cycle_us ;;
  compute_delays N MIN_P (fst c).

(** ** The numbers of [format_power_table]

    For the delay [d] at position [i] the function computes
    [alpha = d * math.pi / half_cycle_us] and [P = P_of_alpha(alpha)] and
    prints the level [i + 1], [d] and [P].  The row below holds these three
    values; the decimal rendering of the float [P] is not modelled. *)
Definition power_row (half_cycle_us : R) (i : nat) (d : Z) : result (Z * Z * R) :=
  alpha <- py_div (IZR d * PI) half_cycle_us ;;
  let P := P_of_alpha alpha in
  Ok ((Z.of_nat i + 1)%Z, d, P).

(** The loop over [enumerate(delays)], from position [i], with the rows
    built so far. *)
Fixpoint power_rows_loop (half_cycle_us : R) (i : nat) (delays : list Z)
  (rows : list (Z * Z * R)) : result (list (Z * Z * R)) :=
  match delays with
  | [] => Ok rows
  | d :: rest =>
      row <- power_row half_cycle_us i d ;;
      power_rows_loop half_cycle_us (S i) rest (rows ++ [row])
  end.

(** The rows of [format_power_table(delays, half_cycle_us)]. *)
Definition power_rows (delays : list Z) (half_cycle_us : R)
  : result (list (Z * Z * R)) :=
  power_rows_loop half_cycle_us 0 delays [].

(** ** The text the script emits

    Strings are the Standard Library's; [str] of an [int] is its decimal
    numeral, [", ".join] and ["\n".join] are [String.concat].  The default
    [name='FAN_DELAY_US'] of [format_c_array] is passed explicitly. *)

Module Text.

Import Ascii String DecimalString.
Local Open Scope string_scope.

(** The one-character string ["\n"]. *)
Definition nl : string := String (ascii_of_nat 10) EmptyString.

(** [str(z)] for an [int]. *)
Definition str (z : Z) : string := NilZero.string_of_int (Z.to_int z).

(** [int(x)] for a float: truncation towards zero. *)
Definition py_int (x : R) : Z :=
  if Rle_dec 0 x then Zfloor x else (- Zfloor (- x))%Z.

(** [default_filename(freq, include_off)]. *)
Definition default_filename (freq : R) (include_off : bool) : string :=
  let suffix := if include_off then "_off" else "" in
  "fan_delay_output_" ++ str (py_int freq) ++ "hz" ++ suffix ++ ".txt".

(** The list [arr] of [format_c_array]. *)
Definition c_array_values (delays : list Z) (include_off : bool) : list Z :=
  if include_off then (0 :: delays)%Z else delays.

(** [format_c_array(delays, include_off, name)]. *)
Definition format_c_array (delays : list Z) (include_off : bool) (name : string)
  : string :=
  let lines := [nl ++ "C array to paste into code:"] in
  let arr := c_array_values delays include_off in
  let arr_len := List.length arr in
  let arr_items := concat ", " (map str arr) in
  let lines :=
    (lines ++ [("const unsigned int " ++ name ++ "[" ++ str (Z.of_nat arr_len)
                ++ "] = {" ++ arr_items ++ "};")%string])%list in
  concat nl lines.

(** [format_delay_from_percent_array(half_cycle_us)]. *)
Definition format_delay_from_percent_array (half_cycle_us : R) : string :=
  let lines := [nl ++ "C array to paste into code:"] in
  let vals := percent_vals half_cycle_us in
  let lines :=
    (lines ++ [("const unsigned int DELAY_FROM_PERCENT[101] = {"
                ++ concat ", " (map str vals) ++ "};")%string])%list in
  concat nl lines.

(** Characters [str] can produce: the digits and the minus sign. *)
Definition is_num_char (c : ascii) : bool :=
  let n := nat_of_ascii c in
  ((48 <=? n)%nat && (n <=? 57)%nat || (n =? 45)%nat)%bool.

Fixpoint all_chars (p : ascii -> bool) (s : string) : bool :=
  match s with
  | EmptyString => true
  | String c rest => (p c && all_chars p rest)%bool
  end.

(** A string that is empty or starts with a character outside [p]. *)
Definition stops (p : ascii -> bool) (s : string) : bool :=
  match s with
  | EmptyString => true
  | String c _ => negb (p c)
  end.

(** A string that is empty or starts with a character that can neither
    continue a number nor separate two items. *)
Definition ends_items (s : string) : bool :=
  match s with
  | EmptyString => true
  | String c _ => (negb (is_num_char c) && negb (Ascii.eqb c ","))%bool
  end.

End Text.

(** * The script on doubles

    The same code with Python's [float] as the primitive binary64 floats:
    the arithmetic, the comparisons, [round] and the conversion of an [int]
    are those of IEEE 754 as the interpreter applies them.  [math.sin] is the
    C library's; it is a parameter of the definitions that call it. *)

Module Doubles.

Import PrimFloat FloatOps SpecFloat.

(** [math.pi], the double nearest to pi. *)
Definition math_pi : float := 0x1.921fb54442d18p+1%float.

(** What a double is: not a number, an infinity, or a finite value, which is
    a rational. *)
Inductive double_value : Set :=
| NaN
| PosInf
| NegInf
| Finite (q : Q).

(** The rational [(-1)^s * m * 2^e]. *)
Definition finite_value (s : bool) (m : positive) (e : Z) : Q :=
  let v := match e with
           | Z0 => inject_Z (Z.pos m)
           | Zpos p => inject_Z (Z.pos m * 2 ^ Z.pos p)
           | Zneg p => Z.pos m # (2 ^ p)
           end in
  if s then (- v)%Q else v.

Definition value_of (x : float) : double_value :=
  match Prim2SF x with
  | S754_zero _ => Finite 0
  | S754_infinity false => PosInf
  | S754_infinity true => NegInf
  | S754_nan => NaN
  | S754_finite s m e => Finite (finite_value s m e)
  end.

(** Nearest integer of a rational, ties to the even neighbour. *)
Definition q_round (q : Q) : Z :=
  let f := Qfloor q in
  match (q - inject_Z f ?= 1 # 2)%Q with
  | Lt => f
  | Gt => (f + 1)%Z
  | Eq => if Z.even f then f else (f + 1)%Z
  end.

(** [round(x)] for a float: [ValueError] on a NaN, [OverflowError] on an
    infinity. *)
Definition round_float (x : float) : result Z :=
  match value_of x with
  | NaN => Raise ValueError
  | PosInf | NegInf => Raise OverflowError
  | Finite q => Ok (q_round q)
  end.

(** The float an [int] converts to when it meets a float in an arithmetic
    operation: the nearest double, [OverflowError] when that is beyond the
    largest one. *)
Definition int_to_float (z : Z) : result float :=
  let x := SF2Prim (binary_normalize prec emax z 0 false) in
  match value_of x with
  | PosInf | NegInf => Raise OverflowError
  | _ => Ok x
  end.

(** [x / z] for a float [x] and an [int] [z]. *)
Definition float_div_int (x : float) (z : Z) : result float :=
  y <- int_to_float z ;;
  if (z =? 0)%Z then Raise ZeroDivisionError else Ok (x / y)%float.

(** [x < z] and [x > z] for a float [x] and an [int] [z]; Python compares
    the two by value, and every comparison with a NaN is false. *)
Definition float_lt_int (x : float) (z : Z) : bool :=
  match value_of x with
  | NaN | PosInf => false
  | NegInf => true
  | Finite q => negb (Qle_bool (inject_Z z) q)
  end.

Definition float_gt_int (x : float) (z : Z) : bool :=
  match value_of x with
  | NaN | NegInf => false
  | PosInf => true
  | Finite q => negb (Qle_bool q (inject_Z z))
  end.

(** The variable [delay_us] of [compute_delays] holds a float until a clamp
    assigns one of the [int] bounds to it. *)
Inductive number : Set :=
| Float (x : float)
| Int (z : Z).

Definition number_lt_int (n : number) (z : Z) : bool :=
  match n with
  | Float x => float_lt_int x z
  | Int y => (y <? z)%Z
  end.

Definition number_gt_int (n : number) (z : Z) : bool :=
  match n with
  | Float x => float_gt_int x z
  | Int y => (y >? z)%Z
  end.

Definition round_number (n : number) : result Z :=
  match n with
  | Float x => round_float x
  | Int y => Ok y
  end.

(** The float [alpha * half_cycle_us / math.pi] of both pipelines. *)
Definition float_delay (alpha half_cycle_us : float) : float :=
  (alpha * half_cycle_us / math_pi)%float.

(** For some angle the delay is a NaN, or is infinite. *)
Definition nan_delay (half_cycle_us : float) : Prop :=
  exists alpha : float, value_of (float_delay alpha half_cycle_us) = NaN.

Definition infinite_delay (half_cycle_us : float) : Prop :=
  exists alpha : float,
    value_of (float_delay alpha half_cycle_us) = PosInf \/
    value_of (float_delay alpha half_cycle_us) = NegInf.

(** Lines 80 to 86 of [compute_delays], from the solved angle: the float
    delay, the two clamps, then [round]. *)
Definition level_conversion (alpha half_cycle_us : float) : result Z :=
  let delay_us := Float (float_delay alpha half_cycle_us) in
  let delay_us :=
    if number_lt_int delay_us MIN_DELAY_US then Int MIN_DELAY_US else delay_us in
  let delay_us :=
    if number_gt_int delay_us MAX_DELAY_US then Int MAX_DELAY_US else delay_us in
  round_number delay_us.

(** Lines 148 to 152 of [format_delay_from_percent_array], from the solved
    angle: [round] of the float delay, then the two clamps. *)
Definition percent_conversion (alpha half_cycle_us : float) : result Z :=
  delay_us <- round_float (float_delay alpha half_cycle_us) ;;
  Ok (clamp_int delay_us).

(** The conversion as the specification words it, on a finite delay: round
    first, then clamp into [[MIN_DELAY_US, MAX_DELAY_US]]. *)
Definition delay_us_spec (delay : Q) : Z :=
  let delay := q_round delay in
  if (delay <? MIN_DELAY_US)%Z then MIN_DELAY_US
  else if (delay >? MAX_DELAY_US)%Z then MAX_DELAY_US
  else delay.

Section Solver.

(** [math.sin]. *)
Variable math_sin : float -> float.

(** [P_of_alpha(alpha)]; the [int] 2 of [2*alpha] converts to [2.0]. *)
Definition P_of_alpha (alpha : float) : float :=
  (1.0 - alpha / math_pi + math_sin (2.0 * alpha) / (2.0 * math_pi))%float.

(** The body of the loop of [alpha_from_P]; the test [p_mid > P] is false
    when either side is a NaN. *)
Definition bisect_step (P : float) (st : float * float) : float * float :=
  let '(lo, hi) := st in
  let mid := ((lo + hi) / 2.0)%float in
  let p_mid := P_of_alpha mid in
  if (P <? p_mid)%float then (mid, hi) else (lo, mid).

Definition bisect_loop (P : float) (n : nat) (st : float * float) : float * float :=
  fold_left (fun s (_ : nat) => bisect_step P s) (seq 0 n) st.

(** [alpha_from_P(P)]. *)
Definition alpha_from_P (P : float) : float :=
  let '(lo, hi) := bisect_loop P 50 (0.0%float, math_pi) in
  ((lo + hi) / 2.0)%float.

(** One iteration of the loop of [compute_delays]. *)
Definition level_delay (levels : Z) (min_power half_cycle_us : float) (level : Z)
  : result Z :=
  step <- float_div_int (1.0 - min_power)%float (levels - 1) ;;
  k <- int_to_float (level - 1) ;;
  let P := (min_power + k * step)%float in
  let alpha := alpha_from_P P in
  level_conversion alpha half_cycle_us.

Fixpoint compute_delays_loop (levels : Z) (min_power half_cycle_us : float)
  (todo : list Z) (delays : list Z) : result (list Z) :=
  match todo with
  | [] => Ok delays
  | level :: rest =>
      d <- level_delay levels min_power half_cycle_us level ;;
      compute_delays_loop levels min_power half_cycle_us rest (delays ++ [d])
  end.

(** [compute_delays(levels, min_power, half_cycle_us)]. *)
Definition compute_delays (levels : Z) (min_power half_cycle_us : float)
  : result (list Z) :=
  compute_delays_loop levels min_power half_cycle_us
    (py_range 1 (levels + 1)) [].

(** One iteration of the loop of [format_delay_from_percent_array]. *)
Definition percent_delay (half_cycle_us : float) (P : Z) : result Z :=
  p <- int_to_float P ;;
  let alpha := alpha_from_P (p / 100.0)%float in
  percent_conversion alpha half_cycle_us.

Fixpoint percent_vals_loop (half_cycle_us : float) (todo : list Z)
  (vals : list Z) : result (list Z) :=
  match todo with
  | [] => Ok vals
  | P :: rest =>
      d <- percent_delay half_cycle_us P ;;
      percent_vals_loop half_cycle_us rest (vals ++ [d])
  end.

(** The list [vals] of [format_delay_from_percent_array(half_cycle_us)]. *)
Definition percent_vals (half_cycle_us : float) : result (list Z) :=
  percent_vals_loop half_cycle_us (py_range 0 101) [].

End Solver.



(** Every [int] of the list converts to a float. *)
Definition all_convert (l : list Z) : bool :=
  forallb (fun z => match int_to_float z with Ok _ => true | Raise _ => false end) l.

End Doubles.

(** * Properties of the power function *)

Section PowerFunction.

Lemma P_of_alpha_0 : P_of_alpha 0 = 1.
Proof.
  unfold P_of_alpha. rewrite Rmult_0_r, sin_0.
  pose proof PI_RGT_0. field. lra.
Qed.

Lemma P_of_alpha_PI : P_of_alpha PI = 0.
Proof.
  unfold P_of_alpha. rewrite sin_2PI.
  pose proof PI_RGT_0. field. lra.
Qed.

(** The difference of two values of the curve, in product form. *)
Lemma P_of_alpha_diff (a b : R) :
  P_of_alpha a - P_of_alpha b =
  ((b - a) - sin (b - a) * cos (a + b)) / PI.
Proof.
  unfold P_of_alpha.
  pose proof PI_RGT_0 as Hpi.
  assert (Hs : sin (2 * b) - sin (2 * a) = 2 * cos (a + b) * sin (b - a)).
  { rewrite form4. f_equal; [f_equal; f_equal; field | f_equal; field]. }
  replace (sin (2 * a)) with (sin (2 * b) - 2 * cos (a + b) * sin (b - a)) by lra.
  field. lra.
Qed.

Lemma sin_cos_lt (d s : R) : 0 < d -> d <= PI -> sin d * cos s < d.
Proof.
  intros Hd Hpi.
  pose proof (sin_lt_x d Hd) as Hlt.
  pose proof (sin_ge_0 d (Rlt_le _ _ Hd) Hpi) as Hge.
  pose proof (COS_bound s) as [_ Hc].
  nra.
Qed.

Lemma P_of_alpha_decr (a b : R) :
  0 <= a -> a < b -> b <= PI -> P_of_alpha b < P_of_alpha a.
Proof.
  intros Ha Hab Hb.
  pose proof PI_RGT_0 as Hpi.
  assert (H : 0 < P_of_alpha a - P_of_alpha b); [ | lra ].
  rewrite P_of_alpha_diff.
  apply Rdiv_lt_0_compat; [ | exact Hpi ].
  assert (sin (b - a) * cos (a + b) < b - a) by (apply sin_cos_lt; lra).
  lra.
Qed.

Lemma P_of_alpha_mono (a b : R) :
  0 <= a -> a <= b -> b <= PI -> P_of_alpha b <= P_of_alpha a.
Proof.
  intros Ha Hab Hb.
  destruct (Req_dec a b) as [-> | Hne]; [ lra | ].
  left. apply P_of_alpha_decr; lra.
Qed.

Lemma P_of_alpha_range (a : R) :
  0 <= a <= PI -> 0 <= P_of_alpha a <= 1.
Proof.
  intros [Ha Hb].
  pose proof (P_of_alpha_mono a PI Ha Hb (Rle_refl _)) as H0.
  pose proof (P_of_alpha_mono 0 a (Rle_refl _) Ha Hb) as H1.
  rewrite P_of_alpha_PI in H0. rewrite P_of_alpha_0 in H1. lra.
Qed.

End PowerFunction.

(** Case analysis on every real comparison the goal tests. *)
Ltac case_real_tests :=
  repeat match goal with
    | |- context [Rlt_dec ?a ?b] => destruct (Rlt_dec a b)
    | |- context [Rgt_dec ?a ?b] => destruct (Rgt_dec a b)
    end.

(** * Properties of [round] *)

Section Rounding.

Lemma py_round_floor_or_succ (x : R) :
  py_round x = Zfloor x \/ py_round x = (Zfloor x + 1)%Z.
Proof.
  unfold py_round.
  destruct (Rlt_dec _ _); [ now left | ].
  destruct (Rgt_dec _ _); [ now right | ].
  destruct (Z.even _); [ now left | now right ].
Qed.

Lemma py_round_error (x : R) :
  IZR (py_round x) - 1 / 2 <= x <= IZR (py_round x) + 1 / 2.
Proof.
  pose proof (Zfloor_bound x) as Hfl.
  unfold py_round.
  destruct (Rlt_dec _ _) as [Hlt | Hnlt]; [ lra | ].
  destruct (Rgt_dec _ _) as [Hgt | Hngt]; [ rewrite plus_IZR; lra | ].
  destruct (Z.even _); [ lra | rewrite plus_IZR; lra ].
Qed.

Lemma py_round_near (x : R) (n : Z) :
  IZR n - 1 / 2 < x < IZR n + 1 / 2 -> py_round x = n.
Proof.
  intros Hx.
  pose proof (py_round_error x) as He.
  assert (H1 : (py_round x < n + 1)%Z).
  { apply lt_IZR. rewrite plus_IZR. lra. }
  assert (H2 : (n < py_round x + 1)%Z).
  { apply lt_IZR. rewrite plus_IZR. lra. }
  lia.
Qed.

Lemma py_round_IZR (n : Z) : py_round (IZR n) = n.
Proof. apply py_round_near. lra. Qed.

(** A tie goes to the even neighbour: [round(2.5) = 2], [round(1.5) = 2]. *)
Lemma py_round_tie (n : Z) :
  py_round (IZR n + 1 / 2) = if Z.even n then n else (n + 1)%Z.
Proof.
  unfold py_round.
  rewrite (Zfloor_eq n (IZR n + 1 / 2)) by lra.
  case_real_tests; try lra. reflexivity.
Qed.

Example py_round_examples :
  py_round (2 + 1 / 2) = 2%Z /\ py_round (1 + 1 / 2) = 2%Z /\
  py_round (-1 + 1 / 2) = 0%Z /\ py_round (7 / 4) = 2%Z /\ py_round (5 / 4) = 1%Z.
Proof.
  repeat split.
  - apply (py_round_tie 2).
  - apply (py_round_tie 1).
  - apply (py_round_tie (-1)).
  - apply py_round_near; lra.
  - apply py_round_near; lra.
Qed.

Lemma py_round_mono (x y : R) : x <= y -> (py_round x <= py_round y)%Z.
Proof.
  intros Hxy.
  pose proof (Zfloor_le x y Hxy) as Hfl.
  destruct (Z.eq_dec (Zfloor x) (Zfloor y)) as [Heq | Hne].
  - unfold py_round. rewrite Heq.
    pose proof (Zfloor_bound y) as Hy.
    case_real_tests; try lia; try lra; destruct (Z.even _); lia.
  - destruct (py_round_floor_or_succ x) as [-> | ->];
      destruct (py_round_floor_or_succ y) as [-> | ->]; lia.
Qed.

Lemma py_round_ge (x : R) (n : Z) : IZR n <= x -> (n <= py_round x)%Z.
Proof.
  intros H. pose proof (py_round_mono (IZR n) x H) as Hm.
  now rewrite py_round_IZR in Hm.
Qed.

Lemma py_round_le (x : R) (n : Z) : x <= IZR n -> (py_round x <= n)%Z.
Proof.
  intros H. pose proof (py_round_mono x (IZR n) H) as Hm.
  now rewrite py_round_IZR in Hm.
Qed.

End Rounding.

(** * Properties of the two clamps *)

Section Clamping.

Lemma clamp_float_range (x : R) :
  IZR MIN_DELAY_US <= clamp_float x <= IZR MAX_DELAY_US.
Proof.
  unfold clamp_float, MIN_DELAY_US, MAX_DELAY_US.
  destruct (Rlt_dec x 50); destruct (Rgt_dec _ 9500); lra.
Qed.

Lemma clamp_float_mono (x y : R) : x <= y -> clamp_float x <= clamp_float y.
Proof.
  intros Hxy. unfold clamp_float, MIN_DELAY_US, MAX_DELAY_US.
  destruct (Rlt_dec x 50); destruct (Rlt_dec y 50);
    repeat destruct (Rgt_dec _ 9500); lra.
Qed.

Lemma clamp_float_low (x : R) : x <= IZR MIN_DELAY_US -> clamp_float x = IZR MIN_DELAY_US.
Proof.
  unfold clamp_float, MIN_DELAY_US, MAX_DELAY_US. intros Hx.
  destruct (Rlt_dec x 50); destruct (Rgt_dec _ 9500); lra.
Qed.

Lemma clamp_float_id (x : R) :
  IZR MIN_DELAY_US <= x <= IZR MAX_DELAY_US -> clamp_float x = x.
Proof.
  unfold clamp_float, MIN_DELAY_US, MAX_DELAY_US. intros Hx.
  destruct (Rlt_dec x 50); destruct (Rgt_dec _ 9500); lra.
Qed.

Lemma clamp_int_range (n : Z) :
  (MIN_DELAY_US <= clamp_int n <= MAX_DELAY_US)%Z.
Proof.
  unfold clamp_int, MIN_DELAY_US, MAX_DELAY_US.
  destruct (n <? 50)%Z eqn:E1; destruct (_ >? 9500)%Z eqn:E2; lia.
Qed.

Lemma clamp_int_spec (n : Z) :
  clamp_int n =
  if (n <? MIN_DELAY_US)%Z then MIN_DELAY_US
  else if (n >? MAX_DELAY_US)%Z then MAX_DELAY_US else n.
Proof.
  unfold clamp_int, MIN_DELAY_US, MAX_DELAY_US.
  destruct (n <? 50)%Z eqn:E1; reflexivity.
Qed.

(** Clamping the float and then rounding gives what rounding and then
    clamping the integer gives: the bounds are integers, and [round] is
    monotone and fixes integers. *)
Lemma round_clamp_commute (x : R) :
  py_round (clamp_float x) = clamp_int (py_round x).
Proof.
  unfold clamp_float, clamp_int.
  destruct (Rlt_dec x (IZR MIN_DELAY_US)) as [Hlo | Hlo].
  - assert (Hr : (py_round x <= MIN_DELAY_US)%Z) by (apply py_round_le; lra).
    destruct (Rgt_dec _ _) as [Hgt | _];
      [ unfold MIN_DELAY_US, MAX_DELAY_US in Hgt; lra | ].
    rewrite py_round_IZR.
    unfold MIN_DELAY_US, MAX_DELAY_US in *.
    destruct (py_round x <? 50)%Z eqn:E1; destruct (_ >? 9500)%Z eqn:E2; lia.
  - assert (Hr : (MIN_DELAY_US <= py_round x)%Z) by (apply py_round_ge; lra).
    destruct (Rgt_dec x (IZR MAX_DELAY_US)) as [Hhi | Hhi].
    + assert (Hr' : (MAX_DELAY_US <= py_round x)%Z) by (apply py_round_ge; lra).
      rewrite py_round_IZR.
      unfold MIN_DELAY_US, MAX_DELAY_US in *.
      destruct (py_round x <? 50)%Z eqn:E1; destruct (_ >? 9500)%Z eqn:E2; lia.
    + assert (Hr' : (py_round x <= MAX_DELAY_US)%Z) by (apply py_round_le; lra).
      unfold MIN_DELAY_US, MAX_DELAY_US in *.
      destruct (py_round x <? 50)%Z eqn:E1; destruct (_ >? 9500)%Z eqn:E2; lia.
Qed.

End Clamping.

(** * The bisection loop *)

Section Bisection.

Variable P : R.

Lemma bisect_loop_0 (st : R * R) : bisect_loop P 0 st = st.
Proof. reflexivity. Qed.

Lemma bisect_loop_S (n : nat) (st : R * R) :
  bisect_loop P (S n) st = bisect_step P (bisect_loop P n st).
Proof.
  unfold bisect_loop. rewrite seq_S, fold_left_app. reflexivity.
Qed.

Lemma bracket_init : bracket P 0 (0, PI).
Proof.
  pose proof PI_RGT_0.
  unfold bracket; simpl. repeat split; try lra; auto.
Qed.

Lemma bracket_step (n : nat) (st : R * R) :
  bracket P n st -> bracket P (S n) (bisect_step P st).
Proof.
  destruct st as [lo hi]. unfold bracket, bisect_step; simpl.
  intros (H0 & Hle & Hpi & Hw & Hlo & Hhi).
  assert (Hpow : 0 < 2 ^ n) by (apply pow_lt; lra).
  assert (Hhalf : PI / (2 * 2 ^ n) = (hi - lo) / 2).
  { rewrite Hw. field. lra. }
  destruct (Rgt_dec _ _) as [Hgt | Hngt]; simpl; rewrite Hhalf;
    repeat split; try lra; auto.
Qed.

Lemma bracket_loop (n : nat) : bracket P n (bisect_loop P n (0, PI)).
Proof.
  induction n as [ | n IH].
  - apply bracket_init.
  - rewrite bisect_loop_S. now apply bracket_step.
Qed.

Lemma alpha_from_P_unfold :
  alpha_from_P P =
  (fst (bisect_loop P 50 (0, PI)) + snd (bisect_loop P 50 (0, PI))) / 2.
Proof.
  unfold alpha_from_P. now destruct (bisect_loop P 50 (0, PI)).
Qed.

(** The result is the midpoint of a bracket of width [PI / 2 ^ 50]. *)
Lemma alpha_from_P_lo :
  alpha_from_P P = fst (bisect_loop P 50 (0, PI)) + PI / 2 ^ 51.
Proof.
  rewrite alpha_from_P_unfold.
  destruct (bracket_loop 50) as (_ & _ & _ & Hw & _).
  assert (Hpow : 0 < 2 ^ 50) by (apply pow_lt; lra).
  change (2 ^ 51) with (2 * 2 ^ 50).
  replace (PI / (2 * 2 ^ 50)) with ((PI / 2 ^ 50) / 2) by (field; lra).
  rewrite <- Hw. field.
Qed.

Lemma alpha_from_P_hi :
  alpha_from_P P = snd (bisect_loop P 50 (0, PI)) - PI / 2 ^ 51.
Proof.
  rewrite alpha_from_P_unfold.
  destruct (bracket_loop 50) as (_ & _ & _ & Hw & _).
  assert (Hpow : 0 < 2 ^ 50) by (apply pow_lt; lra).
  change (2 ^ 51) with (2 * 2 ^ 50).
  replace (PI / (2 * 2 ^ 50)) with ((PI / 2 ^ 50) / 2) by (field; lra).
  rewrite <- Hw. field.
Qed.

Lemma alpha_from_P_range : 0 <= alpha_from_P P <= PI.
Proof.
  rewrite alpha_from_P_unfold.
  destruct (bracket_loop 50) as (H0 & Hle & Hpi & _). lra.
Qed.

(** An angle whose power is above the target lies left of the final [hi]. *)
Lemma alpha_from_P_above (a : R) :
  0 <= a <= PI -> P < P_of_alpha a -> a - PI / 2 ^ 51 <= alpha_from_P P.
Proof.
  intros [Ha0 Hapi] Hgt.
  rewrite alpha_from_P_hi.
  destruct (bracket_loop 50) as (H0 & Hle & Hpi & _ & _ & Hhi).
  set (hi := snd (bisect_loop P 50 (0, PI))) in *.
  assert (a <= hi); [ | lra ].
  destruct Hhi as [-> | Hhi]; [ lra | ].
  destruct (Rle_lt_dec a hi) as [ | Hlt]; [ assumption | ].
  pose proof (P_of_alpha_mono hi a) as Hm. lra.
Qed.

(** An angle whose power is at most the target lies right of the final [lo]. *)
Lemma alpha_from_P_below (b : R) :
  0 <= b <= PI -> P_of_alpha b <= P -> alpha_from_P P <= b + PI / 2 ^ 51.
Proof.
  intros [Hb0 Hbpi] Hle'.
  rewrite alpha_from_P_lo.
  destruct (bracket_loop 50) as (H0 & Hle & Hpi & _ & Hlo & _).
  set (lo := fst (bisect_loop P 50 (0, PI))) in *.
  assert (lo <= b); [ | lra ].
  destruct Hlo as [-> | Hlo]; [ lra | ].
  destruct (Rle_lt_dec lo b) as [ | Hlt]; [ assumption | ].
  pose proof (P_of_alpha_mono b lo) as Hm. lra.
Qed.

End Bisection.

(** * Consequences for [alpha_from_P] *)

Section Inversion.

Lemma sin_le_x (d : R) : 0 <= d -> sin d <= d.
Proof.
  intros [Hd | <-]; [ left; now apply sin_lt_x | rewrite sin_0; lra ].
Qed.

(** The curve falls by at most [2 / PI] per radian. *)
Lemma P_of_alpha_lipschitz (a b : R) :
  0 <= a -> a <= b -> b <= PI ->
  P_of_alpha a - P_of_alpha b <= 2 * (b - a) / PI.
Proof.
  intros Ha Hab Hb.
  pose proof PI_RGT_0 as Hpi.
  rewrite P_of_alpha_diff.
  apply Rmult_le_compat_r; [ left; now apply Rinv_0_lt_compat | ].
  pose proof (sin_le_x (b - a)) as Hs.
  pose proof (sin_ge_0 (b - a)) as Hs0.
  pose proof (COS_bound (a + b)) as [Hc _].
  assert (0 <= sin (b - a) <= b - a) by (split; [apply Hs0 | apply Hs]; lra).
  nra.
Qed.

(** A target of full power or more keeps [lo] at [0.0]. *)
Lemma alpha_from_P_full (P : R) : 1 <= P -> alpha_from_P P = PI / 2 ^ 51.
Proof.
  intros HP. rewrite alpha_from_P_lo.
  destruct (bracket_loop P 50) as (H0 & Hle & Hpi & _ & Hlo & _).
  destruct Hlo as [-> | Hlo]; [ lra | ].
  pose proof (P_of_alpha_range (fst (bisect_loop P 50 (0, PI)))). lra.
Qed.

(** A target of zero power or less keeps [hi] at [math.pi]. *)
Lemma alpha_from_P_none (P : R) : P <= 0 -> alpha_from_P P = PI - PI / 2 ^ 51.
Proof.
  intros HP. rewrite alpha_from_P_hi.
  destruct (bracket_loop P 50) as (H0 & Hle & Hpi & _ & _ & Hhi).
  destruct Hhi as [-> | Hhi]; [ lra | ].
  set (hi := snd (bisect_loop P 50 (0, PI))) in *.
  destruct (Req_dec hi PI) as [-> | Hne]; [ lra | ].
  pose proof (P_of_alpha_decr hi PI) as Hd.
  rewrite P_of_alpha_PI in Hd. lra.
Qed.

(** A larger target never gives a larger angle: the two runs of the loop
    either share their bracket or the bracket of the larger target lies to
    the left. *)
Lemma bisect_loop_antitone (P1 P2 : R) (n : nat) :
  P1 <= P2 ->
  bisect_loop P1 n (0, PI) = bisect_loop P2 n (0, PI) \/
  snd (bisect_loop P2 n (0, PI)) <= fst (bisect_loop P1 n (0, PI)).
Proof.
  intros HP. induction n as [ | n IH]; [ now left | ].
  rewrite !bisect_loop_S.
  pose proof (bracket_loop P1 n) as (_ & Hle1 & _).
  pose proof (bracket_loop P2 n) as (_ & Hle2 & _).
  destruct (bisect_loop P1 n (0, PI)) as [lo1 hi1].
  destruct (bisect_loop P2 n (0, PI)) as [lo2 hi2].
  simpl in *. unfold bisect_step.
  destruct IH as [IH | IH].
  - injection IH as -> ->.
    destruct (Rgt_dec _ P1); destruct (Rgt_dec _ P2); simpl;
      try (now left); try lra.
  - right. destruct (Rgt_dec _ P1); destruct (Rgt_dec _ P2); simpl; lra.
Qed.

Lemma alpha_from_P_antitone (P1 P2 : R) :
  P1 <= P2 -> alpha_from_P P2 <= alpha_from_P P1.
Proof.
  intros HP.
  destruct (bisect_loop_antitone P1 P2 50 HP) as [Heq | Hsep].
  - rewrite !alpha_from_P_unfold, Heq. lra.
  - rewrite (alpha_from_P_hi P2), (alpha_from_P_lo P1).
    assert (0 < PI / 2 ^ 51).
    { apply Rdiv_lt_0_compat; [ apply PI_RGT_0 | apply pow_lt; lra ]. }
    lra.
Qed.

(** The power at the returned angle is within [1 / 2 ^ 50] of the target. *)
Lemma alpha_from_P_round_trip (P : R) :
  0 <= P <= 1 -> Rabs (P_of_alpha (alpha_from_P P) - P) <= / 2 ^ 50.
Proof.
  intros [HP0 HP1].
  pose proof PI_RGT_0 as Hpi.
  assert (Hpow : 0 < 2 ^ 51) by (apply pow_lt; lra).
  assert (Heps : 0 < PI / 2 ^ 51) by (now apply Rdiv_lt_0_compat).
  assert (Hstep : 2 * (PI / 2 ^ 51) / PI = / 2 ^ 50).
  { change (2 ^ 51) with (2 * 2 ^ 50).
    assert (2 ^ 50 <> 0) by (apply pow_nonzero; lra).
    field. auto with real. }
  destruct (bracket_loop P 50) as (H0 & Hle & Hhipi & _ & Hlo & Hhi).
  pose proof (alpha_from_P_lo P) as Elo.
  pose proof (alpha_from_P_hi P) as Ehi.
  set (lo := fst (bisect_loop P 50 (0, PI))) in *.
  set (hi := snd (bisect_loop P 50 (0, PI))) in *.
  set (r := alpha_from_P P) in *.
  assert (Plo : P <= P_of_alpha lo).
  { destruct Hlo as [-> | Hlo]; [ rewrite P_of_alpha_0 | ]; lra. }
  assert (Phi : P_of_alpha hi <= P).
  { destruct Hhi as [-> | Hhi]; [ rewrite P_of_alpha_PI | ]; lra. }
  pose proof (P_of_alpha_lipschitz lo r) as L1.
  pose proof (P_of_alpha_lipschitz r hi) as L2.
  pose proof (P_of_alpha_mono lo r) as M1.
  pose proof (P_of_alpha_mono r hi) as M2.
  replace (r - lo) with (PI / 2 ^ 51) in L1 by lra.
  replace (hi - r) with (PI / 2 ^ 51) in L2 by lra.
  rewrite Hstep in L1, L2.
  apply Rabs_le. lra.
Qed.

End Inversion.

(** * The level table *)

Section LevelTable.

Lemma py_range_length (a b : Z) : length (py_range a b) = Z.to_nat (b - a).
Proof. unfold py_range. now rewrite length_map, length_seq. Qed.

Lemma py_range_nth_error (a b : Z) (i : nat) :
  (i < Z.to_nat (b - a))%nat ->
  nth_error (py_range a b) i = Some (a + Z.of_nat i)%Z.
Proof.
  intros Hi. unfold py_range.
  rewrite nth_error_map, nth_error_seq.
  destruct (Nat.ltb_spec i (Z.to_nat (b - a))); [ reflexivity | lia ].
Qed.

Lemma level_delay_ok (levels : Z) (min_power half_cycle_us : R) (level : Z) :
  levels <> 1%Z ->
  level_delay levels min_power half_cycle_us level =
  Ok (level_value levels min_power half_cycle_us level).
Proof.
  intros Hl. unfold level_delay, py_div.
  destruct (Req_dec_T _ 0) as [H0 | _]; [ | reflexivity ].
  apply eq_IZR_R0 in H0. lia.
Qed.


Lemma compute_delays_loop_ok (levels : Z) (min_power half_cycle_us : R)
  (todo delays : list Z) :
  levels <> 1%Z ->
  compute_delays_loop levels min_power half_cycle_us todo delays =
  Ok (delays ++ map (level_value levels min_power half_cycle_us) todo).
Proof.
  intros Hl. revert delays.
  induction todo as [ | level rest IH]; intros delays; simpl.
  - now rewrite app_nil_r.
  - rewrite level_delay_ok by assumption. simpl.
    rewrite IH, <- app_assoc. reflexivity.
Qed.

Lemma compute_delays_ok (levels : Z) (min_power half_cycle_us : R) :
  levels <> 1%Z ->
  compute_delays levels min_power half_cycle_us =
  Ok (map (level_value levels min_power half_cycle_us) (py_range 1 (levels + 1))).
Proof.
  intros Hl. unfold compute_delays. now rewrite compute_delays_loop_ok.
Qed.


Lemma level_value_range (levels : Z) (min_power half_cycle_us : R) (level : Z) :
  (MIN_DELAY_US <= level_value levels min_power half_cycle_us level <= MAX_DELAY_US)%Z.
Proof.
  unfold level_value.
  pose proof (clamp_float_range
    (alpha_from_P (level_power levels min_power level) * half_cycle_us / PI))
    as [Hlo Hhi].
  split; [ now apply py_round_ge | now apply py_round_le ].
Qed.

Lemma level_power_mono (levels : Z) (min_power : R) (l1 l2 : Z) :
  (2 <= levels)%Z -> min_power <= 1 -> (l1 <= l2)%Z ->
  level_power levels min_power l1 <= level_power levels min_power l2.
Proof.
  intros Hl Hmp Hle. unfold level_power.
  assert (Hd : 0 < IZR (levels - 1)) by (apply IZR_lt; lia).
  assert (Hs : 0 <= (1 - min_power) / IZR (levels - 1)).
  { apply Rmult_le_pos; [ lra | left; now apply Rinv_0_lt_compat ]. }
  assert (Hi : IZR (l1 - 1) <= IZR (l2 - 1)) by (apply IZR_le; lia).
  nra.
Qed.

Lemma level_value_antitone (levels : Z) (min_power half_cycle_us : R) (l1 l2 : Z) :
  (2 <= levels)%Z -> min_power <= 1 -> 0 <= half_cycle_us -> (l1 <= l2)%Z ->
  (level_value levels min_power half_cycle_us l2 <=
   level_value levels min_power half_cycle_us l1)%Z.
Proof.
  intros Hl Hmp Hhc Hle. unfold level_value.
  apply py_round_mono, clamp_float_mono.
  pose proof (alpha_from_P_antitone _ _ (level_power_mono levels min_power l1 l2 Hl Hmp Hle)) as Ha.
  pose proof PI_RGT_0 as Hpi.
  apply Rmult_le_compat_r; [ left; now apply Rinv_0_lt_compat | ].
  now apply Rmult_le_compat_r.
Qed.

End LevelTable.

(** * Soundness of the rational enclosures *)

Module EnclosureFacts.

Import Enclosure.

Lemma Q2R_one : Q2R 1 = 1.
Proof. unfold Q2R; simpl; lra. Qed.

Lemma Q2R_inject_Z (z : Z) : Q2R (inject_Z z) = IZR z.
Proof. unfold Q2R; simpl; lra. Qed.

Lemma Q2R_qpow (x : Q) (n : nat) : Q2R (qpow x n) = Q2R x ^ n.
Proof.
  induction n as [ | n IH]; simpl; [ apply Q2R_one | ].
  now rewrite Q2R_mult, IH.
Qed.

Lemma Q2R_div_Z (x : Q) (z : Z) :
  (0 < z)%Z -> Q2R (x / inject_Z z) = Q2R x / IZR z.
Proof.
  intros Hz. rewrite Q2R_div, Q2R_inject_Z; [ reflexivity | ].
  unfold Qeq; simpl. lia.
Qed.

Lemma scale_pos : 0 < IZR scale.
Proof. unfold scale. lra. Qed.

Lemma fdiv_le (a b : Z) : (0 < b)%Z -> IZR (a / b) <= IZR a / IZR b.
Proof.
  intros Hb.
  assert (Hb' : 0 < IZR b) by (now apply IZR_lt).
  apply Rmult_le_reg_r with (IZR b); [ assumption | ].
  unfold Rdiv. rewrite Rmult_assoc, Rinv_l, Rmult_1_r by lra.
  rewrite <- mult_IZR. apply IZR_le.
  pose proof (Z.mul_div_le a b Hb). lia.
Qed.

Lemma cdiv_ge (a b : Z) : (0 < b)%Z -> IZR a / IZR b <= IZR (cdiv a b).
Proof.
  intros Hb.
  assert (Hb' : 0 < IZR b) by (now apply IZR_lt).
  apply Rmult_le_reg_r with (IZR b); [ assumption | ].
  unfold Rdiv. rewrite Rmult_assoc, Rinv_l, Rmult_1_r by lra.
  rewrite <- mult_IZR. apply IZR_le.
  unfold cdiv.
  pose proof (Z.div_mod (a + b - 1) b ltac:(lia)) as Hdm.
  pose proof (Z.mod_pos_bound (a + b - 1) b Hb) as Hm.
  lia.
Qed.

Lemma zden_pos (j : nat) : (0 < zden j)%Z.
Proof. unfold zden, scale. lia. Qed.

Lemma IZR_zden (j : nat) :
  IZR (zden j) = INR (2 * j + 2) * INR (2 * j + 3) * IZR scale.
Proof.
  unfold zden. rewrite !mult_IZR, !plus_IZR, !mult_IZR, <- INR_IZR_INZ.
  rewrite !plus_INR, !mult_INR. simpl. ring.
Qed.

Lemma sterm_0 (x : R) : sterm x 0 = x.
Proof. unfold sterm. simpl. lra. Qed.

Lemma sterm_S (x : R) (k : nat) :
  sterm x (S k) = sterm x k * (x * x) / (INR (2 * k + 2) * INR (2 * k + 3)).
Proof.
  unfold sterm.
  assert (Hp : x ^ (2 * S k + 1) = x * (x * x ^ (2 * k + 1))).
  { replace (2 * S k + 1)%nat with (S (S (2 * k + 1))) by lia. reflexivity. }
  assert (Hf : INR (fact (2 * S k + 1)) =
               INR (2 * k + 3) * (INR (2 * k + 2) * INR (fact (2 * k + 1)))).
  { replace (2 * S k + 1)%nat with (S (S (2 * k + 1))) by lia.
    rewrite fact_simpl, mult_INR, fact_simpl, mult_INR.
    do 2 f_equal; f_equal; lia. }
  rewrite Hp, Hf.
  pose proof (INR_fact_lt_0 (2 * k + 1)) as Hfp.
  assert (H2 : 0 < INR (2 * k + 2)) by (apply lt_0_INR; lia).
  assert (H3 : 0 < INR (2 * k + 3)) by (apply lt_0_INR; lia).
  field. repeat split; lra.
Qed.

Lemma sterm_nonneg (x : R) (k : nat) : 0 <= x -> 0 <= sterm x k.
Proof.
  intros Hx. unfold sterm.
  apply Rmult_le_pos; [ now apply pow_le | ].
  left. apply Rinv_0_lt_compat, INR_fact_lt_0.
Qed.

Lemma zsq_lo_sound (xl : Z) (x : R) :
  (0 <= xl)%Z -> IZR xl / IZR scale <= x ->
  (0 <= zsq_lo xl)%Z /\ IZR (zsq_lo xl) / IZR scale <= x * x.
Proof.
  intros H0 Hx. pose proof scale_pos as Hs.
  assert (Hsz : (0 < scale)%Z) by (apply lt_IZR; exact Hs).
  split; [ unfold zsq_lo; apply Z.div_pos; nia | ].
  pose proof (fdiv_le (xl * xl) scale Hsz) as Hd. fold (zsq_lo xl) in Hd.
  rewrite mult_IZR in Hd.
  assert (Hq : 0 <= IZR xl / IZR scale).
  { apply Rmult_le_pos; [ now apply IZR_le | left; now apply Rinv_0_lt_compat ]. }
  apply Rle_trans with (IZR xl / IZR scale * (IZR xl / IZR scale)); [ | nra ].
  apply Rle_trans with (IZR xl * IZR xl / IZR scale / IZR scale).
  - apply Rmult_le_compat_r; [ left; now apply Rinv_0_lt_compat | exact Hd ].
  - right. field. lra.
Qed.

Lemma zsq_hi_sound (xu : Z) (x : R) :
  0 <= x -> x <= IZR xu / IZR scale ->
  x * x <= IZR (zsq_hi xu) / IZR scale.
Proof.
  intros H0 Hx. pose proof scale_pos as Hs.
  assert (Hsz : (0 < scale)%Z) by (apply lt_IZR; exact Hs).
  pose proof (cdiv_ge (xu * xu) scale Hsz) as Hd. fold (zsq_hi xu) in Hd.
  rewrite mult_IZR in Hd.
  apply Rle_trans with (IZR xu / IZR scale * (IZR xu / IZR scale)); [ nra | ].
  apply Rle_trans with (IZR xu * IZR xu / IZR scale / IZR scale).
  - right. field. lra.
  - apply Rmult_le_compat_r; [ left; now apply Rinv_0_lt_compat | exact Hd ].
Qed.

Lemma zterm_lo_sound (xl : Z) (x : R) (k : nat) :
  (0 <= xl)%Z -> IZR xl / IZR scale <= x ->
  (0 <= zterm_lo (zsq_lo xl) xl k)%Z /\
  IZR (zterm_lo (zsq_lo xl) xl k) / IZR scale <= sterm x k.
Proof.
  intros H0 Hx. pose proof scale_pos as Hs.
  destruct (zsq_lo_sound xl x H0 Hx) as [Hq0 Hq].
  assert (Hx0 : 0 <= x).
  { apply Rle_trans with (2 := Hx).
    apply Rmult_le_pos; [ now apply IZR_le | left; now apply Rinv_0_lt_compat ]. }
  induction k as [ | k [IH0 IH]].
  - rewrite sterm_0. simpl. auto.
  - cbn [zterm_lo]. pose proof (zden_pos k) as Hd.
    split; [ apply Z.div_pos; [ nia | assumption ] | ].
    pose proof (fdiv_le (zterm_lo (zsq_lo xl) xl k * zsq_lo xl) (zden k) Hd) as Hf.
    rewrite mult_IZR, IZR_zden in Hf.
    rewrite sterm_S.
    set (t := zterm_lo (zsq_lo xl) xl k) in *.
    set (q := zsq_lo xl) in *.
    assert (H2 : 0 < INR (2 * k + 2)) by (apply lt_0_INR; lia).
    assert (H3 : 0 < INR (2 * k + 3)) by (apply lt_0_INR; lia).
    set (c := INR (2 * k + 2) * INR (2 * k + 3)) in *.
    assert (Hc : 0 < c) by (unfold c; nra).
    assert (Ht : 0 <= IZR t / IZR scale).
    { apply Rmult_le_pos; [ now apply IZR_le | left; now apply Rinv_0_lt_compat ]. }
    assert (Hqq : 0 <= IZR q / IZR scale).
    { apply Rmult_le_pos; [ now apply IZR_le | left; now apply Rinv_0_lt_compat ]. }
    apply Rle_trans with (IZR t / IZR scale * (IZR q / IZR scale) / c).
    + apply Rle_trans with (IZR t * IZR q / (c * IZR scale) / IZR scale).
      * apply Rmult_le_compat_r; [ left; now apply Rinv_0_lt_compat | exact Hf ].
      * right. field. lra.
    + apply Rmult_le_compat_r; [ left; now apply Rinv_0_lt_compat | ].
      apply Rmult_le_compat; assumption.
Qed.

Lemma zterm_hi_sound (xu : Z) (x : R) (k : nat) :
  0 <= x -> x <= IZR xu / IZR scale ->
  sterm x k <= IZR (zterm_hi (zsq_hi xu) xu k) / IZR scale.
Proof.
  intros Hx0 Hx. pose proof scale_pos as Hs.
  pose proof (zsq_hi_sound xu x Hx0 Hx) as Hq.
  induction k as [ | k IH].
  - rewrite sterm_0. simpl. assumption.
  - cbn [zterm_hi]. pose proof (zden_pos k) as Hd.
    pose proof (cdiv_ge (zterm_hi (zsq_hi xu) xu k * zsq_hi xu) (zden k) Hd) as Hf.
    rewrite mult_IZR, IZR_zden in Hf.
    rewrite sterm_S.
    pose proof (sterm_nonneg x k Hx0) as Hst.
    set (t := zterm_hi (zsq_hi xu) xu k) in *.
    set (q := zsq_hi xu) in *.
    assert (H2 : 0 < INR (2 * k + 2)) by (apply lt_0_INR; lia).
    assert (H3 : 0 < INR (2 * k + 3)) by (apply lt_0_INR; lia).
    set (c := INR (2 * k + 2) * INR (2 * k + 3)) in *.
    assert (Hc : 0 < c) by (unfold c; nra).
    apply Rle_trans with (IZR t / IZR scale * (IZR q / IZR scale) / c).
    + apply Rmult_le_compat_r; [ left; now apply Rinv_0_lt_compat | ].
      apply Rmult_le_compat; try assumption. nra.
    + apply Rle_trans with (IZR t * IZR q / (c * IZR scale) / IZR scale).
      * right. field. lra.
      * apply Rmult_le_compat_r; [ left; now apply Rinv_0_lt_compat | exact Hf ].
Qed.

Lemma sin_term_even (x : R) (k : nat) :
  Nat.even k = true -> sin_term x k = sterm x k.
Proof.
  intros He. apply Nat.even_spec in He as [m ->].
  unfold sin_term, sterm. rewrite pow_1_even. lra.
Qed.

Lemma sin_term_odd (x : R) (k : nat) :
  Nat.even k = false -> sin_term x k = - sterm x k.
Proof.
  intros He.
  assert (Ho : Nat.odd k = true) by (rewrite <- Nat.negb_even, He; reflexivity).
  apply Nat.odd_spec in Ho as [m ->].
  unfold sin_term, sterm. replace (2 * m + 1)%nat with (S (2 * m)) by lia.
  rewrite pow_1_odd. lra.
Qed.

Lemma sin_term_bounds (xl xu : Z) (x : R) (k : nat) :
  (0 <= xl)%Z -> IZR xl / IZR scale <= x -> x <= IZR xu / IZR scale ->
  IZR (if Nat.even k then zterm_lo (zsq_lo xl) xl k
       else - zterm_hi (zsq_hi xu) xu k) / IZR scale <= sin_term x k /\
  sin_term x k <=
  IZR (if Nat.even k then zterm_hi (zsq_hi xu) xu k
       else - zterm_lo (zsq_lo xl) xl k) / IZR scale.
Proof.
  intros H0 Hl Hu. pose proof scale_pos as Hs.
  assert (Hx0 : 0 <= x).
  { apply Rle_trans with (2 := Hl).
    apply Rmult_le_pos; [ now apply IZR_le | left; now apply Rinv_0_lt_compat ]. }
  destruct (zterm_lo_sound xl x k H0 Hl) as [_ L].
  pose proof (zterm_hi_sound xu x k Hx0 Hu) as U.
  destruct (Nat.even k) eqn:He.
  - rewrite (sin_term_even x k He). auto.
  - rewrite (sin_term_odd x k He), !opp_IZR.
    unfold Rdiv in *. rewrite !Ropp_mult_distr_l_reverse. lra.
Qed.

Lemma sin_approx_bounds (xl xu : Z) (x : R) (n : nat) :
  (0 <= xl)%Z -> IZR xl / IZR scale <= x -> x <= IZR xu / IZR scale ->
  IZR (sinz_lo xl xu n) / IZR scale <= sin_approx x n <=
  IZR (sinz_hi xl xu n) / IZR scale.
Proof.
  intros H0 Hl Hu. unfold sin_approx.
  induction n as [ | n IH].
  - destruct (sin_term_bounds xl xu x 0 H0 Hl Hu) as [B1 B2]. simpl in *. lra.
  - destruct (sin_term_bounds xl xu x (S n) H0 Hl Hu) as [B1 B2].
    cbn [sinz_lo sinz_hi sum_f_R0]. rewrite !plus_IZR.
    unfold Rdiv in *. rewrite !Rmult_plus_distr_r. lra.
Qed.

Lemma pow_m1 (i : nat) : (-1) ^ i = Q2R (if Nat.even i then 1 else -1).
Proof.
  destruct (Nat.even i) eqn:He.
  - apply Nat.even_spec in He as [m ->]. rewrite pow_1_even. now rewrite Q2R_one.
  - assert (Ho : Nat.odd i = true) by (rewrite <- Nat.negb_even, He; reflexivity).
    apply Nat.odd_spec in Ho as [m ->].
    replace (2 * m + 1)%nat with (S (2 * m)) by lia.
    rewrite pow_1_odd. unfold Q2R; simpl; lra.
Qed.

Lemma Q2R_qratan (x : Q) (n : nat) : Q2R (qratan x n) = Ratan_seq (Q2R x) n.
Proof.
  unfold qratan, Ratan_seq.
  rewrite Q2R_div_Z by lia.
  now rewrite Q2R_qpow, <- INR_IZR_INZ.
Qed.

Lemma Q2R_machin_term (i : nat) :
  Q2R (machin_term i) = tg_alt PI_2_3_7_tg i.
Proof.
  unfold machin_term, tg_alt, PI_2_3_7_tg.
  rewrite Q2R_mult, Q2R_plus, Q2R_mult, !Q2R_qratan, <- pow_m1.
  replace (Q2R (1 # 3)) with (/ 3) by (unfold Q2R; simpl; lra).
  replace (Q2R (1 # 7)) with (/ 7) by (unfold Q2R; simpl; lra).
  replace (Q2R 2) with 2 by (unfold Q2R; simpl; lra).
  reflexivity.
Qed.

Lemma Q2R_machin_sum (n : nat) :
  Q2R (machin_sum n) = sum_f_R0 (tg_alt PI_2_3_7_tg) n.
Proof.
  induction n as [ | n IH]; cbn [machin_sum sum_f_R0].
  - apply Q2R_machin_term.
  - now rewrite Q2R_plus, IH, Q2R_machin_term.
Qed.

Lemma pi_bounds : Q2R pi_lo < PI < Q2R pi_hi.
Proof.
  pose proof (PI_2_3_7_ineq 6) as [Hl Hu].
  rewrite <- !Q2R_machin_sum in *.
  assert (L : (pi_lo < 4 * machin_sum (S (2 * 6)))%Q) by (vm_compute; reflexivity).
  assert (U : (4 * machin_sum (2 * 6) < pi_hi)%Q) by (vm_compute; reflexivity).
  apply Qlt_Rlt in L, U. rewrite Q2R_mult in L, U.
  replace (Q2R 4) with 4 in L, U by (unfold Q2R; simpl; lra).
  lra.
Qed.

Lemma Q2R_two : Q2R 2 = 2.
Proof. unfold Q2R; simpl; lra. Qed.

Lemma Q2R_nonneg (x : Q) : (0 <= x)%Q -> 0 <= Q2R x.
Proof. intros H. apply Qle_Rle in H. unfold Q2R at 1 in H; simpl in H. lra. Qed.

Lemma fixed_floor (y : Q) :
  (0 <= y)%Q ->
  (0 <= Qfloor (y * inject_Z scale))%Z /\
  IZR (Qfloor (y * inject_Z scale)) / IZR scale <= Q2R y.
Proof.
  intros Hy. pose proof scale_pos as Hs. split.
  - change 0%Z with (Qfloor 0). apply Qfloor_resp_le.
    apply Qmult_le_0_compat; [ assumption | discriminate ].
  - pose proof (Qfloor_le (y * inject_Z scale)) as Hf.
    apply Qle_Rle in Hf. rewrite Q2R_mult, !Q2R_inject_Z in Hf.
    apply Rmult_le_reg_r with (IZR scale); [ assumption | ].
    unfold Rdiv. rewrite Rmult_assoc, Rinv_l, Rmult_1_r by lra. exact Hf.
Qed.

Lemma fixed_ceiling (y : Q) :
  Q2R y <= IZR (Qceiling (y * inject_Z scale)) / IZR scale.
Proof.
  pose proof scale_pos as Hs.
  pose proof (Qle_ceiling (y * inject_Z scale)) as Hf.
  apply Qle_Rle in Hf. rewrite Q2R_mult, !Q2R_inject_Z in Hf.
  apply Rmult_le_reg_r with (IZR scale); [ assumption | ].
  unfold Rdiv. rewrite Rmult_assoc, Rinv_l, Rmult_1_r by lra. exact Hf.
Qed.

Lemma sinpi_bounds (s : Q) :
  (0 <= s)%Q -> (s <= 1)%Q ->
  Q2R (sinpi_lo s) <= sin (PI * Q2R s) <= Q2R (sinpi_hi s).
Proof.
  intros H0 H1.
  assert (Hy : (0 <= pi_lo * s)%Q).
  { apply Qmult_le_0_compat; [ discriminate | assumption ]. }
  destruct (fixed_floor (pi_lo * s) Hy) as [B0 B1].
  pose proof (fixed_ceiling (pi_hi * s)) as B2.
  rewrite Q2R_mult in B1, B2.
  apply Q2R_nonneg in H0. apply Qle_Rle in H1. rewrite Q2R_one in H1.
  pose proof pi_bounds as [Hl Hu].
  pose proof PI_RGT_0 as Hpi.
  assert (B3 : 0 <= PI * Q2R s) by nra.
  assert (B4 : PI * Q2R s <= PI) by nra.
  assert (B1' : IZR (Qfloor (pi_lo * s * inject_Z scale)) / IZR scale
                <= PI * Q2R s) by nra.
  assert (B2' : PI * Q2R s
                <= IZR (Qceiling (pi_hi * s * inject_Z scale)) / IZR scale) by nra.
  pose proof (sin_bound (PI * Q2R s) 4 B3 B4) as [S1 S2].
  pose proof (sin_approx_bounds _ _ _ (2 * 4 + 1) B0 B1' B2') as [A1 _].
  pose proof (sin_approx_bounds _ _ _ (2 * (4 + 1)) B0 B1' B2') as [_ A2].
  unfold sinpi_lo, sinpi_hi.
  rewrite !Q2R_div_Z, !Q2R_inject_Z by reflexivity. lra.
Qed.

Lemma sin2_bounds (q : Q) :
  (0 <= q)%Q -> (q <= 1)%Q ->
  Q2R (sin2_lo q) <= sin (2 * (PI * Q2R q)) <= Q2R (sin2_hi q).
Proof.
  intros H0 H1. unfold sin2_lo, sin2_hi.
  destruct (Qle_bool q (1 # 2)) eqn:Hq.
  - apply Qle_bool_iff in Hq.
    assert (A0 : (0 <= 2 * q)%Q) by (apply Qmult_le_0_compat; [ discriminate | assumption ]).
    assert (A1 : (2 * q <= 1)%Q).
    { apply Rle_Qle. apply Qle_Rle in Hq. rewrite Q2R_mult, Q2R_two, Q2R_one.
      unfold Q2R at 2 in Hq; simpl in Hq. lra. }
    pose proof (sinpi_bounds (2 * q) A0 A1) as B.
    rewrite Q2R_mult, Q2R_two in B.
    replace (2 * (PI * Q2R q)) with (PI * (2 * Q2R q)) by ring. exact B.
  - assert (Hq' : ~ (q <= 1 # 2)%Q).
    { intros C. apply Qle_bool_iff in C. congruence. }
    apply Qnot_le_lt, Qlt_Rlt in Hq'. unfold Q2R at 1 in Hq'; simpl in Hq'.
    apply Qle_Rle in H1. rewrite Q2R_one in H1.
    assert (A0 : (0 <= 2 * q - 1)%Q).
    { apply Rle_Qle. rewrite Q2R_minus, Q2R_mult, Q2R_two, Q2R_one.
      unfold Q2R at 1; simpl. lra. }
    assert (A1 : (2 * q - 1 <= 1)%Q).
    { apply Rle_Qle. rewrite Q2R_minus, Q2R_mult, Q2R_two, Q2R_one. lra. }
    pose proof (sinpi_bounds (2 * q - 1) A0 A1) as B.
    rewrite Q2R_minus, Q2R_mult, Q2R_two, Q2R_one in B.
    replace (2 * (PI * Q2R q)) with (PI * (2 * Q2R q - 1) + PI) by ring.
    rewrite neg_sin, !Q2R_opp. lra.
Qed.

Lemma Q2R_div_2pi_lo (v : Q) : Q2R (v / (2 * pi_lo)) = Q2R v / (2 * Q2R pi_lo).
Proof. rewrite Q2R_div, Q2R_mult, Q2R_two; [ reflexivity | discriminate ]. Qed.

Lemma Q2R_div_2pi_hi (v : Q) : Q2R (v / (2 * pi_hi)) = Q2R v / (2 * Q2R pi_hi).
Proof. rewrite Q2R_div, Q2R_mult, Q2R_two; [ reflexivity | discriminate ]. Qed.

Lemma div_pos_antitone (a b c : R) : 0 <= a -> 0 < b -> b <= c -> a / c <= a / b.
Proof.
  intros Ha Hb Hbc. unfold Rdiv.
  apply Rmult_le_compat_l; [ assumption | ].
  apply Rinv_le_contravar; assumption.
Qed.

Lemma div_neg_monotone (a b c : R) : a <= 0 -> 0 < b -> b <= c -> a / b <= a / c.
Proof.
  intros Ha Hb Hbc.
  pose proof (div_pos_antitone (- a) b c) as H.
  unfold Rdiv in *. lra.
Qed.

Lemma div_le_compat (a b c : R) : 0 < c -> a <= b -> a / c <= b / c.
Proof.
  intros Hc Hab. unfold Rdiv.
  apply Rmult_le_compat_r; [ left; now apply Rinv_0_lt_compat | assumption ].
Qed.

Lemma div2pi_lo_sound (v : Q) (x : R) :
  Q2R v <= x -> Q2R (div2pi_lo v) <= x / (2 * PI).
Proof.
  intros Hv. pose proof pi_bounds as [Hl Hu].
  assert (Hlo : 0 < Q2R pi_lo) by (unfold pi_lo, Q2R; simpl; lra).
  apply Rle_trans with (Q2R v / (2 * PI)); [ | apply div_le_compat; lra ].
  unfold div2pi_lo. destruct (Qle_bool 0 v) eqn:Hs.
  - apply Qle_bool_iff, Q2R_nonneg in Hs.
    rewrite Q2R_div_2pi_hi. apply div_pos_antitone; lra.
  - assert (Hs' : ~ (0 <= v)%Q) by (intros C; apply Qle_bool_iff in C; congruence).
    apply Qnot_le_lt, Qlt_Rlt in Hs'. unfold Q2R at 2 in Hs'; simpl in Hs'.
    rewrite Q2R_div_2pi_lo. apply div_neg_monotone; lra.
Qed.

Lemma div2pi_hi_sound (v : Q) (x : R) :
  x <= Q2R v -> x / (2 * PI) <= Q2R (div2pi_hi v).
Proof.
  intros Hv. pose proof pi_bounds as [Hl Hu].
  assert (Hlo : 0 < Q2R pi_lo) by (unfold pi_lo, Q2R; simpl; lra).
  apply Rle_trans with (Q2R v / (2 * PI)); [ apply div_le_compat; lra | ].
  unfold div2pi_hi. destruct (Qle_bool 0 v) eqn:Hs.
  - apply Qle_bool_iff, Q2R_nonneg in Hs.
    rewrite Q2R_div_2pi_lo. apply div_pos_antitone; lra.
  - assert (Hs' : ~ (0 <= v)%Q) by (intros C; apply Qle_bool_iff in C; congruence).
    apply Qnot_le_lt, Qlt_Rlt in Hs'. unfold Q2R at 2 in Hs'; simpl in Hs'.
    rewrite Q2R_div_2pi_hi. apply div_neg_monotone; lra.
Qed.

Lemma P_of_alpha_bounds (q : Q) :
  (0 <= q)%Q -> (q <= 1)%Q ->
  Q2R (P_lo q) <= P_of_alpha (PI * Q2R q) <= Q2R (P_hi q).
Proof.
  intros H0 H1.
  pose proof (sin2_bounds q H0 H1) as [S1 S2].
  pose proof (div2pi_lo_sound _ _ S1) as D1.
  pose proof (div2pi_hi_sound _ _ S2) as D2.
  pose proof PI_RGT_0 as Hpi.
  unfold P_lo, P_hi, P_of_alpha.
  rewrite !Q2R_plus, !Q2R_minus, Q2R_one.
  replace (PI * Q2R q / PI) with (Q2R q) by (field; lra).
  lra.
Qed.

(** The test is sound. *)
Lemma delay_check_sound (p hc : Q) (n : Z) :
  delay_check p hc n = true ->
  py_round (alpha_from_P (Q2R p) * Q2R hc / PI) = n.
Proof.
  unfold delay_check.
  set (qa := ((inject_Z n - (1 # 2) + (1 # 1000)) / hc)%Q).
  set (qb := ((inject_Z n + (1 # 2) - (1 # 1000)) / hc)%Q).
  intros H.
  repeat (apply andb_prop in H; destruct H as [H ?]).
  repeat match goal with
    | Hb : Qle_bool _ _ = true |- _ => apply Qle_bool_iff in Hb
    end.
  match goal with
    | Hb : negb (Qle_bool ?a ?b) = true |- _ =>
        assert (Hab : (b < a)%Q);
          [ apply Qnot_le_lt; intros C; apply Qle_bool_iff in C;
            rewrite C in Hb; discriminate | clear Hb ]
  end.
  rename H into Hhc1.
  match goal with Hb : (hc <= 1000000)%Q |- _ => rename Hb into Hhc2 end.
  apply Qle_Rle in Hhc1, Hhc2. rewrite Q2R_one in Hhc1.
  replace (Q2R 1000000) with 1000000 in Hhc2 by (unfold Q2R; simpl; lra).
  assert (Hnz : ~ (hc == 0)%Q).
  { intros C. apply Qeq_eqR in C. unfold Q2R at 2 in C; simpl in C. lra. }
  assert (Eqa : Q2R qa * Q2R hc = IZR n - 1 / 2 + 1 / 1000).
  { unfold qa. rewrite Q2R_div, Q2R_plus, Q2R_minus, Q2R_inject_Z by assumption.
    unfold Q2R at 1 2; simpl. field. lra. }
  assert (Eqb : Q2R qb * Q2R hc = IZR n + 1 / 2 - 1 / 1000).
  { unfold qb. rewrite Q2R_div, Q2R_minus, Q2R_plus, Q2R_inject_Z by assumption.
    unfold Q2R at 1 2; simpl. field. lra. }
  match goal with Ha : (0 <= qa)%Q |- _ => rename Ha into Hqa0 end.
  match goal with Ha : (qa <= 1)%Q |- _ => rename Ha into Hqa1 end.
  match goal with Ha : (0 <= qb)%Q |- _ => rename Ha into Hqb0 end.
  match goal with Ha : (qb <= 1)%Q |- _ => rename Ha into Hqb1 end.
  match goal with Ha : (P_hi qb <= p)%Q |- _ => rename Ha into Hbelow end.
  pose proof (P_of_alpha_bounds qa Hqa0 Hqa1) as [La _].
  pose proof (P_of_alpha_bounds qb Hqb0 Hqb1) as [_ Ub].
  apply Qlt_Rlt in Hab. apply Qle_Rle in Hbelow.
  apply Q2R_nonneg in Hqa0, Hqb0.
  apply Qle_Rle in Hqa1, Hqb1. rewrite Q2R_one in Hqa1, Hqb1.
  pose proof PI_RGT_0 as Hpi.
  assert (Ra : 0 <= PI * Q2R qa <= PI) by (split; nra).
  assert (Rb : 0 <= PI * Q2R qb <= PI) by (split; nra).
  pose proof (alpha_from_P_above (Q2R p) _ Ra ltac:(lra)) as Alo.
  pose proof (alpha_from_P_below (Q2R p) _ Rb ltac:(lra)) as Ahi.
  set (r := alpha_from_P (Q2R p)) in *.
  assert (Hpow : 1000 * 1000000 < 2 ^ 51) by lra.
  assert (Hpos : 0 < 2 ^ 51) by lra.
  set (w := 2 ^ 51) in *.
  assert (Xlo : (Q2R qa - / w) * Q2R hc <= r * Q2R hc / PI).
  { replace ((Q2R qa - / w) * Q2R hc)
      with ((PI * Q2R qa - PI / w) * Q2R hc / PI) by (field; lra).
    apply div_le_compat; [ assumption | ].
    apply Rmult_le_compat_r; lra. }
  assert (Xhi : r * Q2R hc / PI <= (Q2R qb + / w) * Q2R hc).
  { replace ((Q2R qb + / w) * Q2R hc)
      with ((PI * Q2R qb + PI / w) * Q2R hc / PI) by (field; lra).
    apply div_le_compat; [ assumption | ].
    apply Rmult_le_compat_r; lra. }
  assert (Hsmall : / w * Q2R hc < 1 / 1000).
  { apply Rmult_lt_reg_l with w; [ assumption | ].
    rewrite <- Rmult_assoc, Rinv_r by lra. lra. }
  apply py_round_near. lra.
Qed.

End EnclosureFacts.

(** * The table at 50 Hz: [levels = 9], [min_power = 0.05],
      [half_cycle_us = 10000.0] *)

Section Table50Hz.

Import Enclosure EnclosureFacts.

Lemma level_power_50Hz (level : Z) :
  level_power 9 (5 / 100) level = Q2R ((8 + 19 * (level - 1)) # 160).
Proof.
  unfold level_power, Q2R. cbn [Qnum Qden].
  rewrite plus_IZR, mult_IZR. simpl (9 - 1)%Z. field.
Qed.

Lemma Q2R_10000 : Q2R 10000 = 10000.
Proof. unfold Q2R; simpl; lra. Qed.

(** A level whose unrounded delay passes the test gets exactly [n]. *)
Lemma level_value_50Hz (level n : Z) :
  delay_check ((8 + 19 * (level - 1)) # 160) 10000 n = true ->
  (MIN_DELAY_US <= n <= MAX_DELAY_US)%Z ->
  level_value 9 (5 / 100) 10000 level = n.
Proof.
  intros Hc Hn. unfold level_value.
  rewrite round_clamp_commute, level_power_50Hz, <- Q2R_10000.
  rewrite (delay_check_sound _ _ _ Hc).
  rewrite clamp_int_spec. unfold MIN_DELAY_US, MAX_DELAY_US in *.
  destruct (n <? 50)%Z eqn:E1; [ lia | ].
  destruct (n >? 9500)%Z eqn:E2; [ lia | reflexivity ].
Qed.

(** The top level targets full power and is clamped up to [MIN_DELAY_US]. *)
Lemma level_value_full (levels : Z) (min_power half_cycle_us : R) (level : Z) :
  1 <= level_power levels min_power level ->
  half_cycle_us <= 1000000 ->
  level_value levels min_power half_cycle_us level = MIN_DELAY_US.
Proof.
  intros HP Hhc. unfold level_value.
  rewrite (alpha_from_P_full _ HP).
  pose proof PI_RGT_0 as Hpi.
  assert (Hpow : 1000000 < 50 * 2 ^ 51) by lra.
  assert (Hpos : 0 < 2 ^ 51) by lra.
  set (w := 2 ^ 51) in *.
  replace (PI / w * half_cycle_us / PI) with (half_cycle_us / w) by (field; lra).
  rewrite clamp_float_low; [ apply py_round_IZR | ].
  unfold MIN_DELAY_US.
  apply Rmult_le_reg_r with w; [ assumption | ].
  unfold Rdiv. rewrite Rmult_assoc, Rinv_l by lra. lra.
Qed.

(** The eight tests, run in [Q]. *)
Lemma level_checks_50Hz :
  forallb (fun ln => delay_check ((8 + 19 * (fst ln - 1)) # 160) 10000 (snd ln))
    [(1, 7980); (2, 6851); (3, 6106); (4, 5472);
     (5, 4875); (6, 4269); (7, 3601); (8, 2758)]%Z = true.
Proof. vm_compute. reflexivity. Qed.

Lemma level_check_50Hz (level n : Z) :
  In (level, n)
    [(1, 7980); (2, 6851); (3, 6106); (4, 5472);
     (5, 4875); (6, 4269); (7, 3601); (8, 2758)]%Z ->
  level_value 9 (5 / 100) 10000 level = n.
Proof.
  intros Hin.
  pose proof level_checks_50Hz as Hall.
  rewrite forallb_forall in Hall.
  pose proof (Hall _ Hin) as Hc. cbn [fst snd] in Hc.
  apply level_value_50Hz; [ exact Hc | ].
  unfold MIN_DELAY_US, MAX_DELAY_US.
  cbn [In] in Hin.
  repeat (destruct Hin as [Hin | Hin]; [ injection Hin as <- <-; lia | ]).
  contradiction.
Qed.

Lemma level_table_50Hz :
  compute_delays 9 (5 / 100) 10000 =
  Ok [7980; 6851; 6106; 5472; 4875; 4269; 3601; 2758; 50]%Z.
Proof.
  rewrite compute_delays_ok by discriminate.
  change (py_range 1 (9 + 1)) with [1; 2; 3; 4; 5; 6; 7; 8; 9]%Z.
  cbn [map].
  rewrite (level_check_50Hz 1 7980) by (cbn [In]; tauto).
  rewrite (level_check_50Hz 2 6851) by (cbn [In]; tauto).
  rewrite (level_check_50Hz 3 6106) by (cbn [In]; tauto).
  rewrite (level_check_50Hz 4 5472) by (cbn [In]; tauto).
  rewrite (level_check_50Hz 5 4875) by (cbn [In]; tauto).
  rewrite (level_check_50Hz 6 4269) by (cbn [In]; tauto).
  rewrite (level_check_50Hz 7 3601) by (cbn [In]; tauto).
  rewrite (level_check_50Hz 8 2758) by (cbn [In]; tauto).
  rewrite (level_value_full 9 (5 / 100) 10000 9); [ reflexivity | | lra ].
  rewrite level_power_50Hz. unfold Q2R; simpl. lra.
Qed.

(** The call [main] makes at the default 50 Hz:
    [compute_delays(N, MIN_P, half_cycle_us)] with [half_cycle_us = 1e6 / (2.0 * 50.0)]. *)
Lemma default_table_50Hz :
  compute_delays N MIN_P (1000000 / (2 * 50)) =
  Ok [7980; 6851; 6106; 5472; 4875; 4269; 3601; 2758; 50]%Z.
Proof.
  unfold N, MIN_P.
  replace (1000000 / (2 * 50)) with 10000 by lra.
  apply level_table_50Hz.
Qed.

End Table50Hz.

(** * The percent table *)

Section PercentTable.

Lemma fold_left_append_map {A B : Type} (f : A -> B) (l : list A) (acc : list B) :
  fold_left (fun vals x => vals ++ [f x]) l acc = acc ++ map f l.
Proof.
  revert acc. induction l as [ | x l IH]; intros acc; simpl.
  - now rewrite app_nil_r.
  - rewrite IH, <- app_assoc. reflexivity.
Qed.

Lemma percent_vals_map (half_cycle_us : R) :
  percent_vals half_cycle_us = map (percent_delay half_cycle_us) (py_range 0 101).
Proof. unfold percent_vals. now rewrite fold_left_append_map. Qed.

Lemma percent_vals_length (half_cycle_us : R) :
  length (percent_vals half_cycle_us) = 101%nat.
Proof. rewrite percent_vals_map, length_map, py_range_length. reflexivity. Qed.

Lemma percent_vals_nth_error (half_cycle_us : R) (p : nat) :
  (p <= 100)%nat ->
  nth_error (percent_vals half_cycle_us) p =
  Some (percent_delay half_cycle_us (Z.of_nat p)).
Proof.
  intros Hp. rewrite percent_vals_map, nth_error_map.
  rewrite py_range_nth_error by (simpl; lia). reflexivity.
Qed.

(** Entry 0 targets [P = 0.0]. *)
Lemma percent_delay_0 (half_cycle_us : R) :
  percent_delay half_cycle_us 0 =
  clamp_int (py_round (half_cycle_us * (1 - / 2 ^ 51))).
Proof.
  unfold percent_delay.
  rewrite alpha_from_P_none by lra.
  pose proof PI_RGT_0 as Hpi.
  assert (Hpos : 0 < 2 ^ 51) by lra.
  set (w := 2 ^ 51) in *.
  do 2 f_equal. field. lra.
Qed.

(** Entry 100 targets [P = 1.0]. *)
Lemma percent_delay_100 (half_cycle_us : R) :
  percent_delay half_cycle_us 100 =
  clamp_int (py_round (half_cycle_us / 2 ^ 51)).
Proof.
  unfold percent_delay.
  rewrite alpha_from_P_full by lra.
  pose proof PI_RGT_0 as Hpi.
  assert (Hpos : 0 < 2 ^ 51) by lra.
  set (w := 2 ^ 51) in *.
  do 2 f_equal. field. lra.
Qed.

Lemma clamp_int_high (n : Z) : (MAX_DELAY_US <= n)%Z -> clamp_int n = MAX_DELAY_US.
Proof.
  unfold clamp_int, MIN_DELAY_US, MAX_DELAY_US. intros Hn.
  destruct (n <? 50)%Z eqn:E1; destruct (_ >? 9500)%Z eqn:E2; lia.
Qed.

Lemma clamp_int_low (n : Z) : (n <= MIN_DELAY_US)%Z -> clamp_int n = MIN_DELAY_US.
Proof.
  unfold clamp_int, MIN_DELAY_US, MAX_DELAY_US. intros Hn.
  destruct (n <? 50)%Z eqn:E1; destruct (_ >? 9500)%Z eqn:E2; lia.
Qed.

Lemma clamp_int_id (n : Z) :
  (MIN_DELAY_US <= n <= MAX_DELAY_US)%Z -> clamp_int n = n.
Proof.
  unfold clamp_int, MIN_DELAY_US, MAX_DELAY_US. intros Hn.
  destruct (n <? 50)%Z eqn:E1; destruct (_ >? 9500)%Z eqn:E2; lia.
Qed.

Lemma percent_delay_0_max (half_cycle_us : R) :
  9500 <= half_cycle_us -> percent_delay half_cycle_us 0 = MAX_DELAY_US.
Proof.
  intros Hhc. rewrite percent_delay_0.
  apply clamp_int_high.
  assert (Hpow : 2 < 2 ^ 51) by lra.
  assert (Hpos : 0 < 2 ^ 51) by lra.
  set (w := 2 ^ 51) in *.
  assert (Hinv : / w < / 2) by (apply Rinv_lt_contravar; lra).
  assert (Hinv0 : 0 < / w) by (now apply Rinv_0_lt_compat).
  unfold MAX_DELAY_US.
  pose proof (py_round_error (half_cycle_us * (1 - / w))) as [_ He].
  assert (Hx : 9499 < IZR (py_round (half_cycle_us * (1 - / w)))).
  { assert (9500 * (1 - / w) <= half_cycle_us * (1 - / w)) by nra.
    assert (9500 * / w < 1 / 2).
    { apply Rmult_lt_reg_r with w; [ assumption | ].
      rewrite Rmult_assoc, Rinv_l by lra.
      unfold w. lra. }
    lra. }
  apply lt_IZR in Hx. lia.
Qed.

Lemma percent_delay_100_min (half_cycle_us : R) :
  half_cycle_us <= 50 * 2 ^ 51 -> percent_delay half_cycle_us 100 = MIN_DELAY_US.
Proof.
  intros Hhc. rewrite percent_delay_100.
  apply clamp_int_low, py_round_le.
  assert (Hpos : 0 < 2 ^ 51) by lra.
  set (w := 2 ^ 51) in *.
  unfold MIN_DELAY_US.
  apply Rmult_le_reg_r with w; [ assumption | ].
  unfold Rdiv. rewrite Rmult_assoc, Rinv_l by lra. lra.
Qed.

End PercentTable.

(** * Order of a table *)

Section TableOrder.

Lemma fold_left_const_index {A : Type} (g : A -> A) (a b n : nat) (st : A) :
  fold_left (fun s (_ : nat) => g s) (seq a n) st =
  fold_left (fun s (_ : nat) => g s) (seq b n) st.
Proof.
  revert a b st. induction n as [ | n IH]; intros a b st; simpl; [ reflexivity | ].
  apply IH.
Qed.

Lemma bisect_loop_front (P : R) (n : nat) (st : R * R) :
  bisect_loop P (S n) st = bisect_loop P n (bisect_step P st).
Proof.
  unfold bisect_loop. simpl. apply fold_left_const_index.
Qed.

Lemma bisect_spec_loop (P : R) (n : nat) (lo hi : R) :
  bisect_spec P n lo hi =
  (fst (bisect_loop P n (lo, hi)) + snd (bisect_loop P n (lo, hi))) / 2.
Proof.
  revert lo hi. induction n as [ | n IH]; intros lo hi.
  - reflexivity.
  - rewrite bisect_loop_front. cbn [bisect_spec bisect_step].
    destruct (Rgt_dec _ _); apply IH.
Qed.

Lemma py_range_levels (levels : Z) (i : nat) (level : Z) :
  nth_error (py_range 1 (levels + 1)) i = Some level -> level = (1 + Z.of_nat i)%Z.
Proof.
  intros H.
  assert (Hi : (i < length (py_range 1 (levels + 1)))%nat).
  { apply nth_error_Some. congruence. }
  rewrite py_range_length in Hi.
  rewrite py_range_nth_error in H by assumption. congruence.
Qed.

Lemma level_table_non_increasing (levels : Z) (min_power half_cycle_us : R) :
  (2 <= levels)%Z -> min_power <= 1 -> 0 <= half_cycle_us ->
  non_increasing
    (map (level_value levels min_power half_cycle_us) (py_range 1 (levels + 1))).
Proof.
  intros Hl Hmp Hhc i j di dj Hij Hi Hj.
  rewrite nth_error_map in Hi, Hj.
  destruct (nth_error _ i) as [li | ] eqn:Ei; [ | discriminate ].
  destruct (nth_error _ j) as [lj | ] eqn:Ej; [ | discriminate ].
  apply py_range_levels in Ei, Ej. simpl in Hi, Hj.
  injection Hi as <-. injection Hj as <-.
  apply level_value_antitone; try assumption. lia.
Qed.

Lemma level_value_low_cycle (levels : Z) (min_power half_cycle_us : R) (level : Z) :
  half_cycle_us <= 0 ->
  level_value levels min_power half_cycle_us level = MIN_DELAY_US.
Proof.
  intros Hhc. unfold level_value.
  pose proof (alpha_from_P_range (level_power levels min_power level)) as [Ha _].
  pose proof PI_RGT_0 as Hpi.
  rewrite clamp_float_low; [ apply py_round_IZR | ].
  unfold MIN_DELAY_US.
  assert (alpha_from_P (level_power levels min_power level) * half_cycle_us / PI <= 0);
    [ | lra ].
  assert (Hinv : 0 < / PI) by (now apply Rinv_0_lt_compat).
  assert (Hm : alpha_from_P (level_power levels min_power level) * half_cycle_us <= 0)
    by nra.
  unfold Rdiv. nra.
Qed.

Lemma strictly_decreasing_50Hz :
  strictly_decreasing [7980; 6851; 6106; 5472; 4875; 4269; 3601; 2758; 50]%Z.
Proof.
  intros i j di dj Hij Hi Hj.
  do 9 (destruct i as [ | i]; [ simpl in Hi; injection Hi as <-;
    do 9 (destruct j as [ | j]; [ simpl in Hj; try injection Hj as <-; lia | ]);
    simpl in Hj; destruct j; discriminate | ]).
  simpl in Hi. destruct i; discriminate.
Qed.

Lemma clamp_int_mono (m n : Z) : (m <= n)%Z -> (clamp_int m <= clamp_int n)%Z.
Proof.
  intros Hmn. unfold clamp_int, MIN_DELAY_US, MAX_DELAY_US.
  destruct (m <? 50)%Z eqn:E1; destruct (n <? 50)%Z eqn:E2;
    repeat match goal with
      | |- context [(?x >? 9500)%Z] => destruct (x >? 9500)%Z eqn:?
      end; lia.
Qed.

Lemma percent_delay_antitone (half_cycle_us : R) (p1 p2 : Z) :
  (p1 <= p2)%Z ->
  (percent_delay half_cycle_us p2 <= percent_delay half_cycle_us p1)%Z.
Proof.
  intros Hp. unfold percent_delay.
  pose proof PI_RGT_0 as Hpi.
  assert (Hinv : 0 < / PI) by (now apply Rinv_0_lt_compat).
  assert (HP : IZR p1 / 100 <= IZR p2 / 100).
  { apply IZR_le in Hp. lra. }
  pose proof (alpha_from_P_antitone _ _ HP) as Ha.
  pose proof (alpha_from_P_range (IZR p1 / 100)) as [A1 _].
  pose proof (alpha_from_P_range (IZR p2 / 100)) as [A2 _].
  set (a1 := alpha_from_P (IZR p1 / 100)) in *.
  set (a2 := alpha_from_P (IZR p2 / 100)) in *.
  destruct (Rle_lt_dec 0 half_cycle_us) as [Hhc | Hhc].
  - apply clamp_int_mono, py_round_mono.
    apply Rmult_le_compat_r; [ lra | ].
    now apply Rmult_le_compat_r.
  - assert (H1 : a1 * half_cycle_us / PI <= 0).
    { assert (a1 * half_cycle_us <= 0) by nra. unfold Rdiv. nra. }
    assert (H2 : a2 * half_cycle_us / PI <= 0).
    { assert (a2 * half_cycle_us <= 0) by nra. unfold Rdiv. nra. }
    rewrite !clamp_int_low; [ lia | | ];
      unfold MIN_DELAY_US; apply py_round_le; lra.
Qed.

Lemma percent_vals_non_increasing (half_cycle_us : R) :
  non_increasing (percent_vals half_cycle_us).
Proof.
  intros i j di dj Hij Hi Hj.
  assert (Li : (i < 101)%nat).
  { rewrite <- (percent_vals_length half_cycle_us). apply nth_error_Some. congruence. }
  assert (Lj : (j < 101)%nat).
  { rewrite <- (percent_vals_length half_cycle_us). apply nth_error_Some. congruence. }
  rewrite percent_vals_nth_error in Hi, Hj by lia.
  injection Hi as <-. injection Hj as <-.
  apply percent_delay_antitone. lia.
Qed.

Lemma percent_vals_in_range (half_cycle_us : R) :
  Forall in_delay_range (percent_vals half_cycle_us).
Proof.
  rewrite percent_vals_map. apply Forall_map, Forall_forall.
  intros p _. apply clamp_int_range.
Qed.

End TableOrder.

(** * The conversion and the tables on doubles *)

Module DoublesFacts.

Import PrimFloat FloatOps SpecFloat Doubles.

Lemma Zfloor_Q2R (q : Q) : Zfloor (Q2R q) = Qfloor q.
Proof.
  apply Zfloor_eq. split.
  - pose proof (Qfloor_le q) as H. apply Qle_Rle in H.
    now rewrite EnclosureFacts.Q2R_inject_Z in H.
  - pose proof (Qlt_floor q) as H. apply Qlt_Rlt in H.
    now rewrite EnclosureFacts.Q2R_inject_Z, plus_IZR in H.
Qed.

(** Rounding a rational is rounding the real it denotes. *)
Lemma q_round_py_round (q : Q) : q_round q = py_round (Q2R q).
Proof.
  unfold q_round, py_round. rewrite Zfloor_Q2R.
  assert (Hd : Q2R (q - inject_Z (Qfloor q)) = Q2R q - IZR (Qfloor q)).
  { now rewrite Q2R_minus, EnclosureFacts.Q2R_inject_Z. }
  assert (Hh : Q2R (1 # 2) = 1 / 2) by (unfold Q2R; simpl; lra).
  destruct (Qcompare_spec (q - inject_Z (Qfloor q)) (1 # 2)) as [He | Hl | Hg].
  - apply Qeq_eqR in He. rewrite Hd, Hh in He.
    destruct (Rlt_dec _ _); [ lra | ]. destruct (Rgt_dec _ _); [ lra | reflexivity ].
  - apply Qlt_Rlt in Hl. rewrite Hd, Hh in Hl.
    destruct (Rlt_dec _ _); [ reflexivity | lra ].
  - apply Qlt_Rlt in Hg. rewrite Hd, Hh in Hg.
    destruct (Rlt_dec _ _); [ lra | ]. destruct (Rgt_dec _ _); [ reflexivity | lra ].
Qed.

Lemma delay_us_spec_clamp (q : Q) : delay_us_spec q = clamp_int (q_round q).
Proof. unfold delay_us_spec. now rewrite clamp_int_spec. Qed.

Lemma delay_us_spec_range (q : Q) : in_delay_range (delay_us_spec q).
Proof. rewrite delay_us_spec_clamp. apply clamp_int_range. Qed.

Lemma Qle_bool_false (a b : Q) : Qle_bool a b = false -> Q2R b < Q2R a.
Proof.
  intros H. apply Qlt_Rlt, Qnot_le_lt. intros C.
  apply Qle_bool_iff in C. congruence.
Qed.

Lemma Qle_bool_true (a b : Q) : Qle_bool a b = true -> Q2R a <= Q2R b.
Proof. intros H. now apply Qle_Rle, Qle_bool_iff. Qed.

(** On a finite delay, clamping the float first and rounding second gives
    the round-then-clamp value. *)
Lemma level_on_finite (x : float) (q : Q) :
  value_of x = Finite q ->
  round_number
    (let d := Float x in
     let d := if number_lt_int d MIN_DELAY_US then Int MIN_DELAY_US else d in
     if number_gt_int d MAX_DELAY_US then Int MAX_DELAY_US else d)
  = Ok (delay_us_spec q).
Proof.
  intros Hx. rewrite delay_us_spec_clamp, q_round_py_round.
  cbn [number_lt_int]. unfold float_lt_int. rewrite Hx.
  destruct (Qle_bool (inject_Z MIN_DELAY_US) q) eqn:E1; cbn [negb].
  - apply Qle_bool_true in E1. rewrite EnclosureFacts.Q2R_inject_Z in E1.
    cbn [number_gt_int]. unfold float_gt_int. rewrite Hx.
    destruct (Qle_bool q (inject_Z MAX_DELAY_US)) eqn:E2; cbn [negb].
    + apply Qle_bool_true in E2. rewrite EnclosureFacts.Q2R_inject_Z in E2.
      cbn [round_number]. unfold round_float. rewrite Hx.
      rewrite q_round_py_round, clamp_int_id; [ reflexivity | ].
      split; [ now apply py_round_ge | now apply py_round_le ].
    + apply Qle_bool_false in E2. rewrite EnclosureFacts.Q2R_inject_Z in E2.
      cbn [round_number]. rewrite clamp_int_high; [ reflexivity | ].
      apply py_round_ge. lra.
  - apply Qle_bool_false in E1. rewrite EnclosureFacts.Q2R_inject_Z in E1.
    cbn [number_gt_int]. change (MIN_DELAY_US >? MAX_DELAY_US)%Z with false.
    cbn [round_number]. rewrite clamp_int_low; [ reflexivity | ].
    apply py_round_le. lra.
Qed.

(** The level conversion by the kind of float the delay is. *)
Lemma level_conversion_value (alpha half_cycle_us : float) :
  level_conversion alpha half_cycle_us =
  match value_of (float_delay alpha half_cycle_us) with
  | Finite q => Ok (delay_us_spec q)
  | PosInf => Ok MAX_DELAY_US
  | NegInf => Ok MIN_DELAY_US
  | NaN => Raise ValueError
  end.
Proof.
  unfold level_conversion.
  set (x := float_delay alpha half_cycle_us).
  destruct (value_of x) as [ | | | q] eqn:Hx.
  - cbn [number_lt_int]. unfold float_lt_int. rewrite Hx.
    cbn [number_gt_int]. unfold float_gt_int. rewrite Hx.
    cbn [round_number]. unfold round_float. now rewrite Hx.
  - cbn [number_lt_int]. unfold float_lt_int. rewrite Hx.
    cbn [number_gt_int]. unfold float_gt_int. now rewrite Hx.
  - cbn [number_lt_int]. unfold float_lt_int. rewrite Hx.
    cbn [number_gt_int]. now change (MIN_DELAY_US >? MAX_DELAY_US)%Z with false.
  - now apply level_on_finite.
Qed.

(** The percent conversion by the kind of float the delay is. *)
Lemma percent_conversion_value (alpha half_cycle_us : float) :
  percent_conversion alpha half_cycle_us =
  match value_of (float_delay alpha half_cycle_us) with
  | Finite q => Ok (delay_us_spec q)
  | PosInf | NegInf => Raise OverflowError
  | NaN => Raise ValueError
  end.
Proof.
  unfold percent_conversion, round_float.
  destruct (value_of (float_delay alpha half_cycle_us)) as [ | | | q];
    cbn [bind]; try reflexivity.
  now rewrite delay_us_spec_clamp.
Qed.


(** What the percent conversion can return: a delay within the bounds,
    [OverflowError] on an infinite delay, [ValueError] on a NaN. *)
Lemma percent_conversion_range (alpha half_cycle_us : float) :
  match percent_conversion alpha half_cycle_us with
  | Ok d => in_delay_range d
  | Raise e =>
      (e = OverflowError /\ infinite_delay half_cycle_us) \/
      (e = ValueError /\ nan_delay half_cycle_us)
  end.
Proof.
  rewrite percent_conversion_value.
  destruct (value_of (float_delay alpha half_cycle_us)) as [ | | | q] eqn:E.
  - right. split; [ reflexivity | now exists alpha ].
  - left. split; [ reflexivity | exists alpha; now left ].
  - left. split; [ reflexivity | exists alpha; now right ].
  - apply delay_us_spec_range.
Qed.


Lemma float_div_int_zero (x : float) : float_div_int x 0 = Raise ZeroDivisionError.
Proof. reflexivity. Qed.


Lemma all_convert_percents : all_convert (py_range 0 101) = true.
Proof. vm_compute. reflexivity. Qed.

Lemma Forall2_nth_error {A B : Type} (R : A -> B -> Prop) (l : list A)
  (l' : list B) (i : nat) (a : A) :
  Forall2 R l l' -> nth_error l i = Some a ->
  exists b : B, nth_error l' i = Some b /\ R a b.
Proof.
  intros H. revert i. induction H as [ | x y l l' Hxy _ IH]; intros i Hi.
  - destruct i; discriminate.
  - destruct i as [ | i]; simpl in *.
    + injection Hi as <-. now exists y.
    + now apply IH.
Qed.

Section Tables.

Variable math_sin : float -> float.

Lemma level_delay_one (min_power half_cycle_us : float) (level : Z) :
  level_delay math_sin 1 min_power half_cycle_us level = Raise ZeroDivisionError.
Proof. reflexivity. Qed.



Lemma percent_delay_cases (half_cycle_us : float) (P : Z) :
  all_convert [P] = true ->
  match percent_delay math_sin half_cycle_us P with
  | Ok d => in_delay_range d
  | Raise e =>
      (e = OverflowError /\ infinite_delay half_cycle_us) \/
      (e = ValueError /\ nan_delay half_cycle_us)
  end.
Proof.
  unfold percent_delay, all_convert. cbn [forallb].
  destruct (int_to_float P) as [p | e]; [ intros _ | discriminate ].
  cbn [bind]. apply percent_conversion_range.
Qed.

(** The loop of [format_delay_from_percent_array] likewise. *)
Lemma percent_vals_loop_cases (half_cycle_us : float) (todo vals : list Z) :
  all_convert todo = true ->
  match percent_vals_loop math_sin half_cycle_us todo vals with
  | Ok tbl =>
      exists ds : list Z,
        tbl = vals ++ ds /\
        Forall in_delay_range ds /\
        Forall2 (fun P d => percent_delay math_sin half_cycle_us P = Ok d) todo ds
  | Raise e =>
      (e = OverflowError /\ infinite_delay half_cycle_us) \/
      (e = ValueError /\ nan_delay half_cycle_us)
  end.
Proof.
  revert vals.
  induction todo as [ | P rest IH]; intros vals Hc; cbn [percent_vals_loop].
  - exists []. rewrite app_nil_r. repeat split; constructor.
  - unfold all_convert in Hc. cbn [forallb] in Hc.
    apply andb_prop in Hc. destruct Hc as [HP Hrest].
    assert (HP' : all_convert [P] = true).
    { unfold all_convert. cbn [forallb]. now rewrite HP. }
    pose proof (percent_delay_cases half_cycle_us P HP') as H.
    destruct (percent_delay math_sin half_cycle_us P) as [d | e] eqn:Ed;
      cbn [bind]; [ | assumption ].
    specialize (IH (vals ++ [d]) Hrest).
    destruct (percent_vals_loop _ _ rest (vals ++ [d])) as [tbl | e];
      [ | assumption ].
    destruct IH as (ds & -> & Hall & Hent).
    exists (d :: ds). rewrite <- app_assoc.
    repeat split; [ now constructor | now constructor ].
Qed.


(** The percent values on doubles, whatever [math.sin] returns. *)
Lemma percent_vals_cases (half_cycle_us : float) :
  match percent_vals math_sin half_cycle_us with
  | Ok vals =>
      length vals = 101%nat /\
      Forall in_delay_range vals /\
      forall (p : nat) (d : Z),
        nth_error vals p = Some d ->
        percent_delay math_sin half_cycle_us (Z.of_nat p) = Ok d
  | Raise e =>
      (e = OverflowError /\ infinite_delay half_cycle_us) \/
      (e = ValueError /\ nan_delay half_cycle_us)
  end.
Proof.
  unfold percent_vals.
  pose proof (percent_vals_loop_cases half_cycle_us (py_range 0 101) []
                all_convert_percents) as H.
  destruct (percent_vals_loop _ _ _ _) as [tbl | e]; [ | assumption ].
  destruct H as (ds & -> & Hall & Hent). cbn [app].
  split.
  { rewrite <- (Forall2_length Hent). apply py_range_length. }
  split; [ assumption | ].
  intros p d Hp.
  assert (Hlen : (p < length (py_range 0 101))%nat).
  { rewrite (Forall2_length Hent). apply nth_error_Some. congruence. }
  rewrite py_range_length in Hlen.
  pose proof (py_range_nth_error 0 101 p Hlen) as Hr.
  destruct (Forall2_nth_error _ _ _ _ _ Hent Hr) as (d' & Hd' & Hok).
  rewrite Hp in Hd'. injection Hd' as <-. exact Hok.
Qed.

End Tables.

End DoublesFacts.

(** * The claims on the conversion and on the power at [math.pi] *)

Section ClaimsOnDoubles.

Import PrimFloat Doubles DoublesFacts.

(** C2, as the code has it.  The two pipelines compute the same float delay
    [alpha * half_cycle_us / math.pi] and then differ in order:
    [compute_delays] clamps the float and rounds the result,
    [format_delay_from_percent_array] rounds the float and clamps the
    integer.  When the float delay is finite both give the value the
    specification words, the rounded delay clamped into
    [[MIN_DELAY_US, MAX_DELAY_US]].  When it is infinite the level pipeline
    returns the clamp bound on that side and the percent pipeline raises
    [OverflowError].  When it is a NaN both raise [ValueError]. *)
Theorem conversions_on_doubles (alpha half_cycle_us : float) :
  match value_of (float_delay alpha half_cycle_us) with
  | Finite q =>
      level_conversion alpha half_cycle_us = Ok (delay_us_spec q) /\
      percent_conversion alpha half_cycle_us = Ok (delay_us_spec q) /\
      delay_us_spec q = clamp_int (py_round (Q2R q))
  | PosInf =>
      level_conversion alpha half_cycle_us = Ok MAX_DELAY_US /\
      percent_conversion alpha half_cycle_us = Raise OverflowError
  | NegInf =>
      level_conversion alpha half_cycle_us = Ok MIN_DELAY_US /\
      percent_conversion alpha half_cycle_us = Raise OverflowError
  | NaN =>
      level_conversion alpha half_cycle_us = Raise ValueError /\
      percent_conversion alpha half_cycle_us = Raise ValueError
  end.
Proof.
  rewrite level_conversion_value, percent_conversion_value.
  destruct (value_of (float_delay alpha half_cycle_us)) as [ | | | q]; auto.
  repeat split. now rewrite delay_us_spec_clamp, q_round_py_round.
Qed.

(** C2 fails on the code: for the angle 2.5 and the half cycle [1e308] the
    float delay is infinite; the level pipeline clamps it to
    [MAX_DELAY_US] and the percent pipeline raises [OverflowError], so the
    two do not apply the same conversion. *)
Lemma conversions_differ_on_overflow :
  value_of (float_delay 2.5 0x1.1ccf385ebc8ap+1023) = PosInf /\
  level_conversion 2.5 0x1.1ccf385ebc8ap+1023 = Ok 9500%Z /\
  percent_conversion 2.5 0x1.1ccf385ebc8ap+1023 = Raise OverflowError.
Proof. vm_compute. auto. Qed.


End ClaimsOnDoubles.

(** * The claims *)

Section Claims.

(** C1.  With [levels = 9], [min_power = 0.05] and [half_cycle_us = 10000.0]
    the call returns the nine delays below.  Level 9 targets [P = 1.0]; its
    unclamped delay is below [MIN_DELAY_US] and the entry is [MIN_DELAY_US = 50].
    Level 1 targets [P = 0.05]; its entry, 7980, is below [MAX_DELAY_US = 9500]
    and above the level-9 entry.  The nine entries are strictly decreasing
    from level 1 to level 9. *)
Theorem scenario_50Hz_table :
  exists tbl : list Z,
    compute_delays 9 (5 / 100) 10000 = Ok tbl /\
    tbl = [7980; 6851; 6106; 5472; 4875; 4269; 3601; 2758; 50]%Z /\
    length tbl = 9%nat /\
    level_power 9 (5 / 100) 9 = 1 /\
    alpha_from_P 1 * 10000 / PI < IZR MIN_DELAY_US /\
    nth_error tbl 8 = Some MIN_DELAY_US /\
    level_power 9 (5 / 100) 1 = 5 / 100 /\
    (exists d1 : Z, nth_error tbl 0 = Some d1 /\
       (d1 < MAX_DELAY_US)%Z /\ (MIN_DELAY_US < d1)%Z) /\
    strictly_decreasing tbl.
Proof.
  eexists. split; [ apply level_table_50Hz | ].
  split; [ reflexivity | ].
  split; [ reflexivity | ].
  split; [ unfold level_power; simpl; field | ].
  split.
  { rewrite alpha_from_P_full by lra.
    pose proof PI_RGT_0 as Hpi.
    assert (Hpow : 10000 < 50 * 2 ^ 51) by lra.
    assert (Hpos : 0 < 2 ^ 51) by lra.
    set (w := 2 ^ 51) in *.
    replace (PI / w * 10000 / PI) with (10000 / w) by (field; lra).
    unfold MIN_DELAY_US.
    apply Rmult_lt_reg_r with w; [ assumption | ].
    unfold Rdiv. rewrite Rmult_assoc, Rinv_l by lra. lra. }
  split; [ reflexivity | ].
  split; [ unfold level_power; simpl; field | ].
  split.
  { exists 7980%Z. unfold MIN_DELAY_US, MAX_DELAY_US. repeat split; lia. }
  apply strictly_decreasing_50Hz.
Qed.




(** C4, as the code has it.  For [levels >= 2], [min_power] in [(0, 1)] and
    [half_cycle_us > 0] the call returns a table of [levels] entries, every
    entry within [[MIN_DELAY_US, MAX_DELAY_US]], and the entries are
    non-increasing as the level increases. *)
Theorem level_table_shape (levels : Z) (min_power half_cycle_us : R) :
  (2 <= levels)%Z -> 0 < min_power < 1 -> 0 < half_cycle_us ->
  exists tbl : list Z,
    compute_delays levels min_power half_cycle_us = Ok tbl /\
    length tbl = Z.to_nat levels /\
    Forall in_delay_range tbl /\
    non_increasing tbl.
Proof.
  intros Hl [Hmp0 Hmp1] Hhc.
  eexists. split; [ apply compute_delays_ok; lia | ].
  split; [ rewrite length_map, py_range_length; f_equal; lia | ].
  split.
  - apply Forall_map, Forall_forall. intros level _. apply level_value_range.
  - apply level_table_non_increasing; [ assumption | lra | lra ].
Qed.

Lemma level_table_shape_witness :
  exists tbl : list Z,
    compute_delays 9 (5 / 100) 10000 = Ok tbl /\
    length tbl = Z.to_nat 9 /\
    Forall in_delay_range tbl /\
    non_increasing tbl.
Proof. apply (level_table_shape 9 (5 / 100) 10000); [ lia | lra | lra ]. Defined.

(** C4 fails on the code: the table of the 50 Hz scenario is not
    non-decreasing, its first entry exceeds its last. *)
Lemma level_table_not_non_decreasing :
  (2 <= 9)%Z /\ 0 < 5 / 100 < 1 /\ 0 < 10000 /\
  exists tbl : list Z,
    compute_delays 9 (5 / 100) 10000 = Ok tbl /\ ~ non_decreasing tbl.
Proof.
  split; [ lia | ]. split; [ lra | ]. split; [ lra | ].
  eexists. split; [ apply level_table_50Hz | ].
  intros H.
  specialize (H 0%nat 8%nat 7980%Z 50%Z ltac:(lia) eq_refl eq_refl). lia.
Qed.

(** C5.  [alpha_from_P] is the bisection the specification describes: 50
    iterations on the bracket that starts as [[0, pi]], each taking the
    midpoint, moving [lo] there when the power at the midpoint is above the
    target and [hi] otherwise, and returning the midpoint of the final
    bracket.  No iteration is skipped: whatever the target is, the final
    bracket has width [pi / 2 ^ 50]. *)
Theorem alpha_from_P_is_bisection (P : R) :
  alpha_from_P P = bisect_spec P 50 0 PI /\
  snd (bisect_loop P 50 (0, PI)) - fst (bisect_loop P 50 (0, PI)) = PI / 2 ^ 50 /\
  forall (n : nat) (lo hi : R),
    bisect_loop P (S n) (lo, hi) =
    bisect_loop P n
      (if Rgt_dec (P_of_alpha ((lo + hi) / 2)) P
       then ((lo + hi) / 2, hi) else (lo, (lo + hi) / 2)).
Proof.
  split; [ | split ].
  - rewrite bisect_spec_loop. apply alpha_from_P_unfold.
  - now destruct (bracket_loop P 50) as (_ & _ & _ & Hw & _).
  - intros n lo hi. rewrite bisect_loop_front. reflexivity.
Qed.

(** C6.  For a target [P] in [[0, 1]] the power at the returned angle
    differs from [P] by at most [1 / 2 ^ 50], which is below [1e-13]; the
    returned angle is the midpoint of a bracket of width [pi / 2 ^ 50]. *)
Theorem round_trip (P : R) :
  0 <= P <= 1 ->
  Rabs (P_of_alpha (alpha_from_P P) - P) <= / 2 ^ 50 /\
  / 2 ^ 50 < 1 / 10 ^ 13.
Proof.
  intros HP. split; [ now apply alpha_from_P_round_trip | lra ].
Qed.

Lemma round_trip_witness :
  Rabs (P_of_alpha (alpha_from_P (1 / 2)) - 1 / 2) <= / 2 ^ 50 /\
  / 2 ^ 50 < 1 / 10 ^ 13.
Proof. apply (round_trip (1 / 2)). lra. Defined.

(** C7.  The power function is [1 - alpha/pi + sin(2 alpha)/(2 pi)]; its
    value at 0 is 1 and its value at [pi] is 0, both within [1e-9]. *)
Theorem power_function_formula :
  (forall alpha : R,
     P_of_alpha alpha = 1 - alpha / PI + sin (2 * alpha) / (2 * PI)) /\
  Rabs (P_of_alpha 0 - 1) <= 1 / 10 ^ 9 /\
  Rabs (P_of_alpha PI - 0) <= 1 / 10 ^ 9.
Proof.
  split; [ reflexivity | ].
  rewrite P_of_alpha_0, P_of_alpha_PI, !Rminus_diag, Rabs_R0. lra.
Qed.



(** C9, as the code has it.  For a half cycle in [(0, 1e300]] the percent
    table has exactly 101 entries, one per percent from 0 to 100, each
    within [[MIN_DELAY_US, MAX_DELAY_US]] and none larger than the one
    before it: low power is a long delay, high power a short one.  Entry 0
    is [MAX_DELAY_US] when [half_cycle_us >= 9500] and entry 100 is
    [MIN_DELAY_US] when [half_cycle_us <= 50 * 2 ^ 51]; outside these
    ranges the ends are not clamped.  On doubles, for every half cycle and
    whatever [math.sin] returns, the call returns 101 entries within the
    bounds, entry [p] being the conversion of the angle solved for
    [p / 100.0], or it raises [OverflowError], when a float delay is
    infinite, or [ValueError], when it is a NaN. *)
Theorem percent_table_shape (half_cycle_us : R) :
  0 < half_cycle_us <= 10 ^ 300 ->
  length (percent_vals half_cycle_us) = 101%nat /\
  Forall in_delay_range (percent_vals half_cycle_us) /\
  non_increasing (percent_vals half_cycle_us) /\
  (9500 <= half_cycle_us ->
     nth_error (percent_vals half_cycle_us) 0 = Some MAX_DELAY_US) /\
  (half_cycle_us <= 50 * 2 ^ 51 ->
     nth_error (percent_vals half_cycle_us) 100 = Some MIN_DELAY_US) /\
  (forall (math_sin : PrimFloat.float -> PrimFloat.float)
          (half_cycle_d : PrimFloat.float),
     match Doubles.percent_vals math_sin half_cycle_d with
     | Ok vals =>
         length vals = 101%nat /\
         Forall in_delay_range vals /\
         forall (p : nat) (d : Z),
           nth_error vals p = Some d ->
           Doubles.percent_delay math_sin half_cycle_d (Z.of_nat p) = Ok d
     | Raise e =>
         (e = OverflowError /\ Doubles.infinite_delay half_cycle_d) \/
         (e = ValueError /\ Doubles.nan_delay half_cycle_d)
     end).
Proof.
  intros _.
  split; [ apply percent_vals_length | ].
  split; [ apply percent_vals_in_range | ].
  split; [ apply percent_vals_non_increasing | ].
  split.
  { intros Hhc. rewrite percent_vals_nth_error by lia. simpl Z.of_nat.
    now rewrite percent_delay_0_max. }
  split.
  { intros Hhc. rewrite percent_vals_nth_error by lia. simpl Z.of_nat.
    now rewrite percent_delay_100_min. }
  intros math_sin half_cycle_d.
  apply DoublesFacts.percent_vals_cases.
Qed.

Lemma percent_table_shape_witness :
  0 < 10000 <= 10 ^ 300 /\
  length (percent_vals 10000) = 101%nat /\
  nth_error (percent_vals 10000) 0 = Some MAX_DELAY_US /\
  nth_error (percent_vals 10000) 100 = Some MIN_DELAY_US.
Proof.
  assert (H : 0 < 10000 <= 10 ^ 300) by (split; lra).
  destruct (percent_table_shape 10000 H) as (Hlen & _ & _ & H0 & H100 & _).
  split; [ exact H | ].
  split; [ exact Hlen | ].
  split; [ apply H0; lra | apply H100; lra ].
Defined.

(** C9 fails on the code: at the 60 Hz half cycle, [1e6 / (2 * 60)], entry 0
    is 8333 and is not clamped to [MAX_DELAY_US]; at a half cycle of
    [10 ^ 18] entry 100 is 444 and is not clamped to [MIN_DELAY_US]. *)
Lemma percent_table_ends_unclamped :
  0 < 1000000 / (2 * 60) /\
  nth_error (percent_vals (1000000 / (2 * 60))) 0 = Some 8333%Z /\
  8333%Z <> MAX_DELAY_US /\
  0 < 10 ^ 18 /\
  nth_error (percent_vals (10 ^ 18)) 100 = Some 444%Z /\
  444%Z <> MIN_DELAY_US.
Proof.
  assert (Hpow : 2 ^ 51 = 2251799813685248) by lra.
  split; [ lra | ]. split; [ | split; [ discriminate | ] ].
  - rewrite percent_vals_nth_error by lia. simpl Z.of_nat.
    rewrite percent_delay_0, Hpow.
    rewrite (py_round_near _ 8333) by lra. reflexivity.
  - split; [ lra | ]. split; [ | discriminate ].
    rewrite percent_vals_nth_error by lia. simpl Z.of_nat.
    rewrite percent_delay_100, Hpow.
    rewrite (py_round_near _ 444) by lra. reflexivity.
Qed.

(** C10.  For every real target, inside [[0, 1]] or not, the loop keeps
    [0 <= lo <= hi <= pi] after every number of iterations, and the
    returned angle lies in [[0, pi]]. *)
Theorem alpha_from_P_in_domain (P : R) :
  (forall n : nat,
     0 <= fst (bisect_loop P n (0, PI)) /\
     fst (bisect_loop P n (0, PI)) <= snd (bisect_loop P n (0, PI)) /\
     snd (bisect_loop P n (0, PI)) <= PI) /\
  0 <= alpha_from_P P <= PI.
Proof.
  split.
  - intros n. destruct (bracket_loop P n) as (H0 & Hle & Hpi & _). auto.
  - apply alpha_from_P_range.
Qed.

End Claims.

(** * Further properties of the inversion *)

Section InversionEdges.

Lemma Rabs_sin_le (d : R) : Rabs (sin d) <= Rabs d.
Proof.
  assert (Hpos : forall t, 0 <= t -> Rabs (sin t) <= t).
  { intros t Ht. apply Rabs_le. split; [ | now apply sin_le_x ].
    destruct (Rle_lt_dec t PI) as [Hpi | Hpi].
    - pose proof (sin_ge_0 t Ht Hpi). lra.
    - pose proof (SIN_bound t) as [Hs _]. pose proof PI2_3_2. lra. }
  destruct (Rle_lt_dec 0 d) as [Hd | Hd].
  - rewrite (Rabs_pos_eq d) by assumption. now apply Hpos.
  - rewrite (Rabs_left d) by assumption.
    rewrite <- (Rabs_Ropp (sin d)), <- sin_neg. apply Hpos. lra.
Qed.

(** The curve changes by at most [2 / PI] per radian, anywhere. *)
Lemma P_of_alpha_lipschitz_abs (a b : R) :
  Rabs (P_of_alpha a - P_of_alpha b) <= 2 * Rabs (b - a) / PI.
Proof.
  pose proof PI_RGT_0 as Hpi.
  rewrite P_of_alpha_diff.
  unfold Rdiv. rewrite Rabs_mult, (Rabs_pos_eq (/ PI))
    by (left; now apply Rinv_0_lt_compat).
  apply Rmult_le_compat_r; [ left; now apply Rinv_0_lt_compat | ].
  pose proof (Rabs_sin_le (b - a)) as Hs.
  pose proof (COS_bound (a + b)) as [Hc1 Hc2].
  assert (Hc : Rabs (cos (a + b)) <= 1) by (apply Rabs_le; lra).
  pose proof (Rabs_pos (sin (b - a))) as Hs0.
  pose proof (Rabs_pos (cos (a + b))) as Hc0.
  assert (Hprod : Rabs (sin (b - a) * cos (a + b)) <= Rabs (b - a)).
  { rewrite Rabs_mult. nra. }
  pose proof (Rabs_triang (b - a) (- (sin (b - a) * cos (a + b)))) as Ht.
  rewrite Rabs_Ropp in Ht.
  replace (b - a - sin (b - a) * cos (a + b))
    with (b - a + - (sin (b - a) * cos (a + b))) by ring.
  lra.
Qed.

End InversionEdges.

(** * Further properties of the tables *)

Section TableEdges.

(** The last level targets full power, whatever [min_power] is. *)
Lemma level_power_last (levels : Z) (min_power : R) :
  levels <> 1%Z -> level_power levels min_power levels = 1.
Proof.
  intros Hl. unfold level_power.
  assert (Hd : IZR (levels - 1) <> 0).
  { intros C. apply eq_IZR_R0 in C. lia. }
  field. exact Hd.
Qed.

Lemma level_power_first (levels : Z) (min_power : R) :
  level_power levels min_power 1 = min_power.
Proof. unfold level_power. simpl. lra. Qed.

Lemma level_value_top (levels : Z) (min_power half_cycle_us : R) :
  levels <> 1%Z -> half_cycle_us <= 50 * 2 ^ 51 ->
  level_value levels min_power half_cycle_us levels = MIN_DELAY_US.
Proof.
  intros Hl Hhc. unfold level_value.
  rewrite level_power_last by assumption.
  rewrite alpha_from_P_full by lra.
  pose proof PI_RGT_0 as Hpi.
  assert (Hpos : 0 < 2 ^ 51) by lra.
  set (w := 2 ^ 51) in *.
  replace (PI / w * half_cycle_us / PI) with (half_cycle_us / w) by (field; lra).
  rewrite clamp_float_low; [ apply py_round_IZR | ].
  unfold MIN_DELAY_US.
  apply Rmult_le_reg_r with w; [ assumption | ].
  unfold Rdiv. rewrite Rmult_assoc, Rinv_l by lra. lra.
Qed.

Lemma percent_delay_low_cycle (half_cycle_us : R) (p : Z) :
  half_cycle_us <= 0 -> percent_delay half_cycle_us p = MIN_DELAY_US.
Proof.
  intros Hhc. unfold percent_delay.
  pose proof (alpha_from_P_range (IZR p / 100)) as [Ha _].
  pose proof PI_RGT_0 as Hpi.
  assert (Hinv : 0 < / PI) by (now apply Rinv_0_lt_compat).
  apply clamp_int_low, py_round_le. unfold MIN_DELAY_US.
  assert (Hm : alpha_from_P (IZR p / 100) * half_cycle_us <= 0) by nra.
  unfold Rdiv. nra.
Qed.

(** An entry strictly inside the clamp bounds was not clamped. *)
Lemma level_value_unclamped (levels : Z) (min_power half_cycle_us : R) (level : Z) :
  (MIN_DELAY_US < level_value levels min_power half_cycle_us level < MAX_DELAY_US)%Z ->
  level_value levels min_power half_cycle_us level =
  py_round (alpha_from_P (level_power levels min_power level) * half_cycle_us / PI).
Proof.
  unfold level_value.
  set (x := alpha_from_P (level_power levels min_power level) * half_cycle_us / PI).
  intros [Hlo Hhi].
  destruct (Rlt_dec x (IZR MIN_DELAY_US)) as [Hx | Hx].
  - rewrite clamp_float_low in Hlo by lra. rewrite py_round_IZR in Hlo. lia.
  - destruct (Rgt_dec x (IZR MAX_DELAY_US)) as [Hx' | Hx'].
    + exfalso. revert Hhi. unfold clamp_float.
      destruct (Rlt_dec x (IZR MIN_DELAY_US)); [ contradiction | ].
      destruct (Rgt_dec x (IZR MAX_DELAY_US)); [ | contradiction ].
      rewrite py_round_IZR. lia.
    + rewrite clamp_float_id by lra. reflexivity.
Qed.

End TableEdges.

(** * The cycle of [main] and the power table *)

Section MainAndPowerTable.

Lemma main_cycle_freq (freq : R) :
  freq <> 0 -> main_cycle freq None = Ok (1000000 / (2 * freq), freq).
Proof.
  intros Hf. unfold main_cycle, py_div.
  destruct (Req_dec_T (2 * freq) 0) as [C | _]; [ lra | reflexivity ].
Qed.

Lemma main_cycle_override (freq hc : R) :
  hc <> 0 -> main_cycle freq (Some hc) = Ok (hc, 1000000 / (2 * hc)).
Proof.
  intros Hh. unfold main_cycle, py_div.
  destruct (Req_dec_T (2 * hc * (1 / 1000000)) 0) as [C | _]; [ lra | ].
  simpl. do 2 f_equal. field. exact Hh.
Qed.

Lemma main_cycle_raise_freq : main_cycle 0 None = Raise ZeroDivisionError.
Proof.
  unfold main_cycle, py_div.
  destruct (Req_dec_T (2 * 0) 0) as [_ | C]; [ reflexivity | lra ].
Qed.

Lemma main_cycle_raise_override (freq : R) :
  main_cycle freq (Some 0) = Raise ZeroDivisionError.
Proof.
  unfold main_cycle, py_div.
  destruct (Req_dec_T (2 * 0 * (1 / 1000000)) 0) as [_ | C]; [ reflexivity | lra ].
Qed.

Lemma power_row_ok (half_cycle_us : R) (i : nat) (d : Z) :
  half_cycle_us <> 0 ->
  power_row half_cycle_us i d =
  Ok ((Z.of_nat i + 1)%Z, d, P_of_alpha (IZR d * PI / half_cycle_us)).
Proof.
  intros Hh. unfold power_row, py_div.
  destruct (Req_dec_T half_cycle_us 0); [ contradiction | reflexivity ].
Qed.

Lemma power_rows_loop_ok (half_cycle_us : R) (delays : list Z) (i : nat)
  (rows : list (Z * Z * R)) :
  half_cycle_us <> 0 ->
  power_rows_loop half_cycle_us i delays rows =
  Ok (rows ++
      map (fun id => ((Z.of_nat (fst id) + 1)%Z, snd id,
                      P_of_alpha (IZR (snd id) * PI / half_cycle_us)))
          (combine (seq i (length delays)) delays)).
Proof.
  intros Hh. revert i rows.
  induction delays as [ | d rest IH]; intros i rows; simpl.
  - now rewrite app_nil_r.
  - rewrite power_row_ok by assumption. simpl.
    rewrite IH, <- app_assoc. reflexivity.
Qed.

Lemma power_rows_raise (d : Z) (rest : list Z) :
  power_rows (d :: rest) 0 = Raise ZeroDivisionError.
Proof.
  unfold power_rows. simpl. unfold power_row, py_div.
  destruct (Req_dec_T 0 0) as [_ | C]; [ reflexivity | now contradiction C ].
Qed.

End MainAndPowerTable.

(** * Further theorems on the numeric core *)

Section NumericExtras.

Lemma map_constant {A B : Type} (f : A -> B) (c : B) (l : list A) :
  (forall x, f x = c) -> map f l = repeat c (length l).
Proof.
  intros Hf. induction l as [ | x l IH]; simpl; [ reflexivity | ].
  now rewrite Hf, IH.
Qed.

Lemma nth_error_combine_seq {A : Type} (l : list A) (s i : nat) (d : A) :
  nth_error l i = Some d ->
  nth_error (combine (seq s (length l)) l) i = Some ((s + i)%nat, d).
Proof.
  revert s i. induction l as [ | x l IH]; intros s i H.
  - destruct i; discriminate.
  - destruct i as [ | i]; simpl in *.
    + injection H as ->. now rewrite Nat.add_0_r.
    + rewrite (IH (S s) i H). do 2 f_equal. lia.
Qed.

Lemma level_power_unit (levels : Z) (min_power : R) (level : Z) :
  (2 <= levels)%Z -> 0 <= min_power <= 1 -> (1 <= level <= levels)%Z ->
  0 <= level_power levels min_power level <= 1.
Proof.
  intros Hl Hmp Hlev.
  pose proof (level_power_mono levels min_power 1 level Hl ltac:(lra) ltac:(lia)) as H1.
  pose proof (level_power_mono levels min_power level levels Hl ltac:(lra) ltac:(lia)) as H2.
  rewrite level_power_first in H1.
  rewrite level_power_last in H2 by lia. lra.
Qed.

(** The power printed for an unclamped entry is close to the target. *)
Lemma power_of_unclamped_entry (levels : Z) (min_power half_cycle_us : R) (level : Z) :
  0 <= level_power levels min_power level <= 1 -> 0 < half_cycle_us ->
  (MIN_DELAY_US < level_value levels min_power half_cycle_us level < MAX_DELAY_US)%Z ->
  Rabs (P_of_alpha (IZR (level_value levels min_power half_cycle_us level) * PI
                    / half_cycle_us)
        - level_power levels min_power level) <= 1 / half_cycle_us + / 2 ^ 50.
Proof.
  intros HP Hhc Hin.
  rewrite (level_value_unclamped _ _ _ _ Hin).
  set (P := level_power levels min_power level) in *.
  set (a := alpha_from_P P).
  set (x := a * half_cycle_us / PI).
  pose proof PI_RGT_0 as Hpi.
  pose proof (py_round_error x) as Hr.
  pose proof (alpha_from_P_round_trip P HP) as Hrt. fold a in Hrt.
  pose proof (P_of_alpha_lipschitz_abs (IZR (py_round x) * PI / half_cycle_us) a) as Hl.
  assert (Ea : a - IZR (py_round x) * PI / half_cycle_us =
               (x - IZR (py_round x)) * (PI / half_cycle_us)).
  { unfold x. field. lra. }
  assert (Hd : Rabs (a - IZR (py_round x) * PI / half_cycle_us)
               <= 1 / 2 * (PI / half_cycle_us)).
  { rewrite Ea, Rabs_mult.
    assert (Hq : 0 < PI / half_cycle_us) by (now apply Rdiv_lt_0_compat).
    rewrite (Rabs_pos_eq (PI / half_cycle_us)) by lra.
    apply Rmult_le_compat_r; [ lra | ]. apply Rabs_le. lra. }
  assert (Hl' : Rabs (P_of_alpha (IZR (py_round x) * PI / half_cycle_us) - P_of_alpha a)
                <= 1 / half_cycle_us).
  { apply Rle_trans with (1 := Hl).
    apply Rle_trans with (2 * (1 / 2 * (PI / half_cycle_us)) / PI).
    - apply Rmult_le_compat_r; [ left; now apply Rinv_0_lt_compat | lra ].
    - right. field. lra. }
  replace (P_of_alpha (IZR (py_round x) * PI / half_cycle_us) - P)
    with ((P_of_alpha (IZR (py_round x) * PI / half_cycle_us) - P_of_alpha a)
          + (P_of_alpha a - P)) by ring.
  apply Rle_trans with (1 := Rabs_triang _ _). lra.
Qed.

(** X2.  [alpha_from_P] is order reversing on all real targets: a larger
    target power never gives a larger angle. *)
Theorem alpha_from_P_order_reversing (P1 P2 : R) :
  P1 <= P2 -> alpha_from_P P2 <= alpha_from_P P1.
Proof.
  intros HP.
  assert (He : 0 < PI / 2 ^ 51).
  { apply Rdiv_lt_0_compat; [ apply PI_RGT_0 | apply pow_lt; lra ]. }
  destruct (bisect_loop_antitone P1 P2 50 HP) as [Hsame | Hleft].
  - (* the two runs end on the same bracket *)
    rewrite !alpha_from_P_unfold, Hsame. lra.
  - (* the bracket of [P2] ends left of the bracket of [P1] *)
    rewrite (alpha_from_P_hi P2), (alpha_from_P_lo P1). lra.
Qed.

Lemma alpha_from_P_order_reversing_witness :
  alpha_from_P (3 / 4) <= alpha_from_P (1 / 4).
Proof. apply (alpha_from_P_order_reversing (1 / 4) (3 / 4)). lra. Defined.

(** X4.  For a half cycle of magnitude up to [1e300], positive or not, each
    of the 101 percent entries lies within [[MIN_DELAY_US, MAX_DELAY_US]]
    and the entries never increase with the percent. *)
Theorem percent_table_ordered (half_cycle_us : R) :
  Rabs half_cycle_us <= 10 ^ 300 ->
  Forall in_delay_range (percent_vals half_cycle_us) /\
  non_increasing (percent_vals half_cycle_us).
Proof.
  intros _.
  split; [ apply percent_vals_in_range | apply percent_vals_non_increasing ].
Qed.

Lemma percent_table_ordered_witness :
  Forall in_delay_range (percent_vals (-10000)) /\
  non_increasing (percent_vals (-10000)).
Proof.
  apply (percent_table_ordered (-10000)).
  rewrite Rabs_left by lra. lra.
Defined.

(** X6.  A half cycle that is zero or negative, down to [-1e300], is not
    refused: every entry of the level table (for a level count other than
    1, below [2 ^ 53]) and every entry of the percent table is then
    [MIN_DELAY_US]. *)
Theorem non_positive_half_cycle (levels : Z) (min_power half_cycle_us : R) :
  levels <> 1%Z -> (levels < 2 ^ 53)%Z ->
  - 10 ^ 300 <= half_cycle_us <= 0 ->
  compute_delays levels min_power half_cycle_us =
    Ok (repeat MIN_DELAY_US (Z.to_nat levels)) /\
  percent_vals half_cycle_us = repeat MIN_DELAY_US 101.
Proof.
  intros Hl _ [_ Hhc]. split.
  - rewrite compute_delays_ok by assumption.
    rewrite (map_constant _ MIN_DELAY_US)
      by (intros level; now apply level_value_low_cycle).
    rewrite py_range_length. do 2 f_equal. lia.
  - rewrite percent_vals_map.
    rewrite (map_constant _ MIN_DELAY_US)
      by (intros p; now apply percent_delay_low_cycle).
    now rewrite py_range_length.
Qed.

Lemma non_positive_half_cycle_witness :
  compute_delays 9 (5 / 100) (-1) = Ok (repeat MIN_DELAY_US (Z.to_nat 9)) /\
  percent_vals (-1) = repeat MIN_DELAY_US 101.
Proof.
  apply (non_positive_half_cycle 9 (5 / 100) (-1));
    [ lia | reflexivity | split; lra ].
Defined.

(** X7.  For at least two levels (fewer than [2 ^ 53]), [min_power] in
    [[0, 1]] and a half cycle between 1 and [1e6] microseconds,
    [format_power_table] applied to the table of [compute_delays] produces
    one row per level, numbered from 1, and the power it computes for an
    entry strictly inside the clamp bounds differs from that level's target
    by at most [1 / half_cycle_us + 1e-9]. *)
Theorem power_table_matches_targets (levels : Z) (min_power half_cycle_us : R) :
  (2 <= levels < 2 ^ 53)%Z -> 0 <= min_power <= 1 ->
  1 <= half_cycle_us <= 10 ^ 6 ->
  exists (tbl : list Z) (rows : list (Z * Z * R)),
    compute_delays levels min_power half_cycle_us = Ok tbl /\
    power_rows tbl half_cycle_us = Ok rows /\
    length rows = length tbl /\
    forall (i : nat) (d : Z),
      nth_error tbl i = Some d ->
      exists p : R,
        nth_error rows i = Some ((Z.of_nat i + 1)%Z, d, p) /\
        ((MIN_DELAY_US < d < MAX_DELAY_US)%Z ->
         Rabs (p - level_power levels min_power (Z.of_nat i + 1))
         <= 1 / half_cycle_us + 1 / 10 ^ 9).
Proof.
  intros [Hl _] Hmp [Hhc _].
  eexists. eexists.
  split; [ apply compute_delays_ok; lia | ].
  split; [ unfold power_rows; apply power_rows_loop_ok; lra | ].
  cbn [app].
  split; [ now rewrite length_map, length_combine, length_seq, Nat.min_id | ].
  intros i d Hi.
  rewrite nth_error_map, (nth_error_combine_seq _ 0 i d Hi). cbn [option_map fst snd Nat.add].
  eexists. split; [ reflexivity | ].
  intros Hin.
  rewrite nth_error_map in Hi.
  destruct (nth_error (py_range 1 (levels + 1)) i) as [level | ] eqn:Ei; [ | discriminate ].
  assert (Hlen : (i < Z.to_nat (levels + 1 - 1))%nat).
  { rewrite <- py_range_length. apply nth_error_Some. congruence. }
  apply py_range_levels in Ei. subst level.
  simpl in Hi. injection Hi as <-.
  replace (Z.of_nat i + 1)%Z with (1 + Z.of_nat i)%Z by lia.
  apply Rle_trans with (1 / half_cycle_us + / 2 ^ 50); [ | lra ].
  apply power_of_unclamped_entry; [ | lra | assumption ].
  apply level_power_unit; [ assumption | assumption | lia ].
Qed.

Lemma power_table_matches_targets_witness :
  exists (tbl : list Z) (rows : list (Z * Z * R)),
    compute_delays 9 (5 / 100) 10000 = Ok tbl /\
    power_rows tbl 10000 = Ok rows /\
    length rows = length tbl /\
    forall (i : nat) (d : Z),
      nth_error tbl i = Some d ->
      exists p : R,
        nth_error rows i = Some ((Z.of_nat i + 1)%Z, d, p) /\
        ((MIN_DELAY_US < d < MAX_DELAY_US)%Z ->
         Rabs (p - level_power 9 (5 / 100) (Z.of_nat i + 1))
         <= 1 / 10000 + 1 / 10 ^ 9).
Proof.
  apply (power_table_matches_targets 9 (5 / 100) 10000);
    [ split; [ lia | reflexivity ] | lra | split; lra ].
Defined.

(** X8.  What [main] computes before it writes.  For a frequency between 1
    and 1000 Hz, or an explicit half cycle between 1 and [1e6]
    microseconds, the cycle succeeds with a positive half cycle and a
    positive frequency for the name; an explicit half cycle is used as
    given, and otherwise the frequency is the one given and the half cycle
    lies between 500 and 500000.  [compute_delays(N, MIN_P, half_cycle_us)]
    then returns nine entries within [[MIN_DELAY_US, MAX_DELAY_US]] and
    [format_power_table] computes a row for each.  A frequency of zero, or
    an explicit half cycle of zero, makes [main] fail with
    [ZeroDivisionError] before any table is computed. *)
Theorem main_cycle_consistent (freq : R) (half_cycle_us : option R) :
  match half_cycle_us with
  | Some given => 1 <= given <= 10 ^ 6
  | None => 1 <= freq <= 1000
  end ->
  (exists (hc f : R) (tbl : list Z) (rows : list (Z * Z * R)),
     main_cycle freq half_cycle_us = Ok (hc, f) /\
     0 < hc /\ 0 < f /\
     match half_cycle_us with
     | Some given => hc = given
     | None => f = freq /\ 500 <= hc <= 500000
     end /\
     main_delays freq half_cycle_us = Ok tbl /\
     length tbl = 9%nat /\
     Forall in_delay_range tbl /\
     power_rows tbl hc = Ok rows /\
     length rows = 9%nat) /\
  main_cycle 0 None = Raise ZeroDivisionError /\
  main_delays 0 None = Raise ZeroDivisionError /\
  main_cycle freq (Some 0) = Raise ZeroDivisionError /\
  main_delays freq (Some 0) = Raise ZeroDivisionError.
Proof.
  intros Hin.
  assert (Htab : forall hc : R, 0 < hc ->
            exists (tbl : list Z) (rows : list (Z * Z * R)),
              compute_delays N MIN_P hc = Ok tbl /\
              length tbl = 9%nat /\
              Forall in_delay_range tbl /\
              power_rows tbl hc = Ok rows /\
              length rows = 9%nat).
  { intros hc Hhc. unfold N.
    rewrite compute_delays_ok by discriminate.
    eexists. eexists.
    split; [ reflexivity | ].
    split; [ now rewrite length_map, py_range_length | ].
    split.
    { apply Forall_map, Forall_forall. intros level _. apply level_value_range. }
    split; [ unfold power_rows; apply power_rows_loop_ok; lra | ].
    cbn [app].
    now rewrite length_map, length_combine, length_seq, length_map, py_range_length. }
  split; [ | split; [ | split; [ | split ] ] ].
  - destruct half_cycle_us as [given | ].
    + assert (Hg : given <> 0) by lra.
      destruct (Htab given ltac:(lra)) as (tbl & rows & Ht & Hlen & Hall & Hr & Hrl).
      exists given, (1000000 / (2 * given)), tbl, rows.
      split; [ now apply main_cycle_override | ].
      split; [ lra | ].
      split; [ apply Rdiv_lt_0_compat; lra | ].
      split; [ reflexivity | ].
      split; [ | auto ].
      unfold main_delays. rewrite main_cycle_override by assumption.
      cbn [bind fst]. exact Ht.
    + assert (Hf : freq <> 0) by lra.
      assert (Hhc : 500 <= 1000000 / (2 * freq) <= 500000).
      { split.
        - apply Rmult_le_reg_r with (2 * freq); [ lra | ].
          unfold Rdiv. rewrite Rmult_assoc, Rinv_l by lra. lra.
        - apply Rmult_le_reg_r with (2 * freq); [ lra | ].
          unfold Rdiv. rewrite Rmult_assoc, Rinv_l by lra. lra. }
      destruct (Htab (1000000 / (2 * freq)) ltac:(lra))
        as (tbl & rows & Ht & Hlen & Hall & Hr & Hrl).
      exists (1000000 / (2 * freq)), freq, tbl, rows.
      split; [ now apply main_cycle_freq | ].
      split; [ lra | ].
      split; [ lra | ].
      split; [ split; [ reflexivity | exact Hhc ] | ].
      split; [ | auto ].
      unfold main_delays. rewrite main_cycle_freq by assumption.
      cbn [bind fst]. exact Ht.
  - apply main_cycle_raise_freq.
  - unfold main_delays. now rewrite main_cycle_raise_freq.
  - apply main_cycle_raise_override.
  - unfold main_delays. now rewrite main_cycle_raise_override.
Qed.

Lemma main_cycle_consistent_witness :
  exists (hc f : R) (tbl : list Z) (rows : list (Z * Z * R)),
    main_cycle 50 None = Ok (hc, f) /\
    0 < hc /\ 0 < f /\
    (f = 50 /\ 500 <= hc <= 500000) /\
    main_delays 50 None = Ok tbl /\
    length tbl = 9%nat /\
    Forall in_delay_range tbl /\
    power_rows tbl hc = Ok rows /\
    length rows = 9%nat.
Proof.
  assert (H : 1 <= 50 <= 1000) by (split; lra).
  exact (proj1 (main_cycle_consistent 50 None H)).
Defined.

End NumericExtras.

(** * The emitted text *)

Module TextFacts.

Import Ascii String DecimalString Text.
Local Open Scope string_scope.

Example str_examples :
  str 0 = "0" /\ str 7980 = "7980" /\ str (-12) = "-12" /\ str 101 = "101".
Proof. repeat split. Qed.

Lemma string_of_uint_chars (d : Decimal.uint) :
  all_chars is_num_char (NilEmpty.string_of_uint d) = true.
Proof. induction d; simpl; try rewrite IHd; reflexivity. Qed.

Lemma str_chars (z : Z) : all_chars is_num_char (str z) = true.
Proof.
  unfold str. destruct z as [ | p | p]; simpl; [ reflexivity | | ].
  - unfold NilZero.string_of_uint.
    destruct (Pos.to_uint p) eqn:E; try reflexivity;
      rewrite <- E; apply string_of_uint_chars.
  - unfold NilZero.string_of_uint.
    destruct (Pos.to_uint p) eqn:E; try reflexivity;
      rewrite <- E; apply string_of_uint_chars.
Qed.

Lemma str_nonempty (z : Z) : str z <> "".
Proof.
  unfold str. destruct z as [ | p | p]; simpl; try discriminate.
  unfold NilZero.string_of_uint.
  destruct (Pos.to_uint p); discriminate.
Qed.

Lemma str_inj (z1 z2 : Z) : str z1 = str z2 -> z1 = z2.
Proof.
  unfold str. intros H.
  assert (Hn : forall z, Z.to_int z <> Decimal.Pos Decimal.Nil /\
                         Z.to_int z <> Decimal.Neg Decimal.Nil).
  { intros [ | p | p]; simpl; split; try discriminate;
      intros [= C]; now apply (DecimalPos.Unsigned.to_uint_nonnil p). }
  apply (f_equal NilZero.int_of_string) in H.
  destruct (Hn z1) as [A1 B1]. destruct (Hn z2) as [A2 B2].
  rewrite !NilZero.isi in H by assumption.
  injection H as H.
  apply (f_equal Z.of_int) in H. now rewrite !DecimalZ.of_to in H.
Qed.

Lemma append_assoc (a b c : string) : (a ++ b) ++ c = a ++ (b ++ c).
Proof. induction a as [ | x a IH]; simpl; [ reflexivity | now rewrite IH ]. Qed.

Lemma append_cancel_l (p a b : string) : p ++ a = p ++ b -> a = b.
Proof.
  induction p as [ | c p IH]; simpl; [ auto | ].
  intros [= H]. now apply IH.
Qed.

(** A run of [p]-characters followed by a stop is read off uniquely. *)
Lemma split_unique (p : ascii -> bool) (s1 s2 t1 t2 : string) :
  all_chars p s1 = true -> all_chars p s2 = true ->
  stops p t1 = true -> stops p t2 = true ->
  s1 ++ t1 = s2 ++ t2 -> s1 = s2 /\ t1 = t2.
Proof.
  revert s2. induction s1 as [ | c s1 IH]; intros s2 H1 H2 T1 T2 E.
  - destruct s2 as [ | c2 s2]; [ auto | ].
    simpl in *. subst t1. simpl in T1.
    apply andb_prop in H2 as [Hc _]. rewrite Hc in T1. discriminate.
  - destruct s2 as [ | c2 s2].
    + simpl in *. subst t2. simpl in T2.
      apply andb_prop in H1 as [Hc _]. rewrite Hc in T2. discriminate.
    + simpl in *. injection E as -> E.
      apply andb_prop in H1 as [_ H1]. apply andb_prop in H2 as [_ H2].
      destruct (IH s2 H1 H2 T1 T2 E) as [-> ->]. auto.
Qed.

Lemma ends_items_stops (t : string) :
  ends_items t = true -> stops is_num_char t = true.
Proof.
  destruct t as [ | c t]; simpl; [ auto | ].
  intros H. now apply andb_prop in H as [H _].
Qed.

Lemma str_head (z : Z) :
  exists c rest, str z = String c rest /\ is_num_char c = true.
Proof.
  pose proof (str_chars z) as Hc. pose proof (str_nonempty z) as Hn.
  destruct (str z) as [ | c rest]; [ contradiction | ].
  simpl in Hc. apply andb_prop in Hc as [Hc _]. eauto.
Qed.

(** The comma-separated items followed by a closing text are read off
    uniquely. *)
Lemma items_inj (l1 l2 : list Z) (t1 t2 : string) :
  ends_items t1 = true -> ends_items t2 = true ->
  concat ", " (map str l1) ++ t1 = concat ", " (map str l2) ++ t2 ->
  l1 = l2 /\ t1 = t2.
Proof.
  revert l2. induction l1 as [ | x r1 IH]; intros l2 T1 T2 E.
  - destruct l2 as [ | y r2]; [ simpl in E; auto | exfalso ].
    destruct (str_head y) as (c & rest & Hy & Hc).
    assert (Hs : exists u, concat ", " (map str (y :: r2)) ++ t2 = String c u).
    { cbn [map concat]. destruct (map str r2); rewrite Hy; simpl; eauto. }
    destruct Hs as [u Hu]. rewrite Hu in E.
    change (concat ", " (map str []) ++ t1) with t1 in E. subst t1.
    simpl in T1. rewrite Hc in T1. discriminate.
  - destruct l2 as [ | y r2].
    + exfalso.
      destruct (str_head x) as (c & rest & Hx & Hc).
      assert (Hs : exists u, concat ", " (map str (x :: r1)) ++ t1 = String c u).
      { cbn [map concat]. destruct (map str r1); rewrite Hx; simpl; eauto. }
      destruct Hs as [u Hu]. rewrite Hu in E.
      change (concat ", " (map str []) ++ t2) with t2 in E. subst t2.
      simpl in T2. rewrite Hc in T2. discriminate.
    + assert (Hsplit : forall (z : Z) (r : list Z) (t : string),
                ends_items t = true ->
                exists tail,
                  concat ", " (map str (z :: r)) ++ t = str z ++ tail /\
                  stops is_num_char tail = true /\
                  tail = match r with
                         | [] => t
                         | _ :: _ => ", " ++ concat ", " (map str r) ++ t
                         end).
      { intros z r t Ht. destruct r as [ | z' r'].
        - exists t. cbn [map concat]. auto using ends_items_stops.
        - eexists. split; [ | split; [ | reflexivity ] ].
          + cbn [map concat]. rewrite !append_assoc. reflexivity.
          + reflexivity. }
      destruct (Hsplit x r1 t1 T1) as (tl1 & E1 & S1 & D1).
      destruct (Hsplit y r2 t2 T2) as (tl2 & E2 & S2 & D2).
      rewrite E1, E2 in E.
      destruct (split_unique is_num_char _ _ _ _
                  (str_chars x) (str_chars y) S1 S2 E) as [Hxy Ht].
      apply str_inj in Hxy. subst y.
      rewrite D1, D2 in Ht.
      destruct r1 as [ | x' r1']; destruct r2 as [ | y' r2'].
      * auto.
      * exfalso. rewrite Ht in T1. discriminate T1.
      * exfalso. rewrite <- Ht in T2. discriminate T2.
      * injection Ht as Ht.
        destruct (IH (y' :: r2') T1 T2 Ht) as [-> ->]. auto.
Qed.

Lemma format_c_array_text (delays : list Z) (include_off : bool) (name : string) :
  format_c_array delays include_off name =
  nl ++ "C array to paste into code:" ++ nl ++ "const unsigned int " ++ name
  ++ "[" ++ str (Z.of_nat (List.length (c_array_values delays include_off)))
  ++ "] = {" ++ concat ", " (map str (c_array_values delays include_off)) ++ "};".
Proof. reflexivity. Qed.

Lemma format_c_array_values (d1 d2 : list Z) (o1 o2 : bool) (name : string) :
  format_c_array d1 o1 name = format_c_array d2 o2 name ->
  c_array_values d1 o1 = c_array_values d2 o2.
Proof.
  rewrite !format_c_array_text. intros E.
  apply append_cancel_l in E.
  apply (append_cancel_l "C array to paste into code:") in E.
  apply append_cancel_l in E.
  apply (append_cancel_l "const unsigned int ") in E.
  apply append_cancel_l in E.
  apply (append_cancel_l "[") in E.
  apply split_unique with (p := is_num_char) in E;
    try apply str_chars; try reflexivity.
  destruct E as [_ E].
  apply (append_cancel_l "] = {") in E.
  apply items_inj in E; try reflexivity. tauto.
Qed.

Lemma default_filename_parts (f1 f2 : R) (o1 o2 : bool) :
  default_filename f1 o1 = default_filename f2 o2 ->
  py_int f1 = py_int f2 /\ o1 = o2.
Proof.
  unfold default_filename. intros E.
  apply (append_cancel_l "fan_delay_output_") in E.
  apply split_unique with (p := is_num_char) in E;
    try apply str_chars; try reflexivity.
  destruct E as [Hn Hs]. apply str_inj in Hn.
  split; [ assumption | ].
  destruct o1; destruct o2; try reflexivity; discriminate.
Qed.

Lemma py_int_IZR (n : Z) : py_int (IZR n) = n.
Proof.
  unfold py_int. destruct (Rle_dec 0 (IZR n)) as [H | H].
  - apply Zfloor_eq. lra.
  - rewrite <- opp_IZR. rewrite (Zfloor_eq (- n)); [ lia | lra ].
Qed.

(** X10.  Two default file names are equal exactly when the integer parts
    of the two frequencies are equal and the two [include_off] flags are
    equal: the name depends on nothing else, and the [_off] variant never
    collides with the plain one. *)
Theorem default_filename_injective (f1 f2 : R) (o1 o2 : bool) :
  default_filename f1 o1 = default_filename f2 o2 <->
  py_int f1 = py_int f2 /\ o1 = o2.
Proof.
  split; [ apply default_filename_parts | ].
  intros [Hn ->]. unfold default_filename. now rewrite Hn.
Qed.

(** X11.  The text of [format_c_array] determines the array it prints: two
    calls with the same name give the same text exactly when their value
    lists are equal.  Printing with [include_off] is printing the list with
    a 0 in front, and never gives the text printed without it. *)
Theorem format_c_array_injective (name : string) :
  (forall (d1 d2 : list Z) (o1 o2 : bool),
     format_c_array d1 o1 name = format_c_array d2 o2 name <->
     c_array_values d1 o1 = c_array_values d2 o2) /\
  (forall d : list Z,
     format_c_array d true name = format_c_array (0%Z :: d) false name /\
     format_c_array d true name <> format_c_array d false name).
Proof.
  split.
  - intros d1 d2 o1 o2. split; [ apply format_c_array_values | ].
    intros E. rewrite !format_c_array_text, E. reflexivity.
  - intros d. split; [ reflexivity | ].
    intros E. apply format_c_array_values in E. simpl in E.
    apply (f_equal (@List.length Z)) in E. simpl in E. lia.
Qed.

(** X12.  The percent array is printed in the format of [format_c_array]:
    its text is what [format_c_array] gives for the percent values under
    the name [DELAY_FROM_PERCENT], so the length 101 written in the
    declaration is the number of values printed; and the text determines
    the percent table. *)
Theorem percent_array_text (h1 h2 : R) :
  format_delay_from_percent_array h1 =
    format_c_array (percent_vals h1) false "DELAY_FROM_PERCENT" /\
  (format_delay_from_percent_array h1 = format_delay_from_percent_array h2 <->
   percent_vals h1 = percent_vals h2).
Proof.
  assert (Hf : forall h, format_delay_from_percent_array h =
                         format_c_array (percent_vals h) false "DELAY_FROM_PERCENT").
  { intros h. rewrite format_c_array_text. unfold c_array_values.
    rewrite percent_vals_length. reflexivity. }
  split; [ apply Hf | ].
  rewrite !Hf. split.
  - intros E. now apply format_c_array_values in E.
  - intros E. now rewrite E.
Qed.

End TextFacts.

(** * The table at 60 Hz and the effect of the half cycle *)

Section HalfCycleScaling.

Import Enclosure EnclosureFacts.

Lemma Q2R_60Hz : Q2R (25000 # 3) = 1000000 / (2 * 60).
Proof. unfold Q2R; simpl; lra. Qed.

Lemma level_value_60Hz (level n : Z) :
  delay_check ((8 + 19 * (level - 1)) # 160) (25000 # 3) n = true ->
  (MIN_DELAY_US <= n <= MAX_DELAY_US)%Z ->
  level_value 9 (5 / 100) (1000000 / (2 * 60)) level = n.
Proof.
  intros Hc Hn. unfold level_value.
  rewrite round_clamp_commute, level_power_50Hz, <- Q2R_60Hz.
  rewrite (delay_check_sound _ _ _ Hc).
  now apply clamp_int_id.
Qed.

Lemma level_checks_60Hz :
  forallb (fun ln => delay_check ((8 + 19 * (fst ln - 1)) # 160) (25000 # 3) (snd ln))
    [(1, 6650); (2, 5709); (3, 5088); (4, 4560);
     (5, 4062); (6, 3557); (7, 3001); (8, 2298)]%Z = true.
Proof. vm_compute. reflexivity. Qed.

Lemma level_check_60Hz (level n : Z) :
  In (level, n)
    [(1, 6650); (2, 5709); (3, 5088); (4, 4560);
     (5, 4062); (6, 3557); (7, 3001); (8, 2298)]%Z ->
  level_value 9 (5 / 100) (1000000 / (2 * 60)) level = n.
Proof.
  intros Hin.
  pose proof level_checks_60Hz as Hall.
  rewrite forallb_forall in Hall.
  pose proof (Hall _ Hin) as Hc. cbn [fst snd] in Hc.
  apply level_value_60Hz; [ exact Hc | ].
  unfold MIN_DELAY_US, MAX_DELAY_US.
  cbn [In] in Hin.
  repeat (destruct Hin as [Hin | Hin]; [ injection Hin as <- <-; lia | ]).
  contradiction.
Qed.

(** What [main] computes for [--freq 60]. *)
Lemma level_table_60Hz :
  main_delays 60 None =
  Ok [6650; 5709; 5088; 4560; 4062; 3557; 3001; 2298; 50]%Z.
Proof.
  unfold main_delays. rewrite main_cycle_freq by lra. cbn [bind fst].
  unfold N, MIN_P.
  rewrite compute_delays_ok by discriminate.
  change (py_range 1 (9 + 1)) with [1; 2; 3; 4; 5; 6; 7; 8; 9]%Z.
  cbn [map].
  rewrite (level_check_60Hz 1 6650) by (cbn [In]; tauto).
  rewrite (level_check_60Hz 2 5709) by (cbn [In]; tauto).
  rewrite (level_check_60Hz 3 5088) by (cbn [In]; tauto).
  rewrite (level_check_60Hz 4 4560) by (cbn [In]; tauto).
  rewrite (level_check_60Hz 5 4062) by (cbn [In]; tauto).
  rewrite (level_check_60Hz 6 3557) by (cbn [In]; tauto).
  rewrite (level_check_60Hz 7 3001) by (cbn [In]; tauto).
  rewrite (level_check_60Hz 8 2298) by (cbn [In]; tauto).
  rewrite (level_value_top 9 (5 / 100)); [ reflexivity | discriminate | lra ].
Qed.

(** X13.  The solved angle does not depend on the half cycle, so two level
    tables computed for positive half cycles [h1] and [h2] are proportional
    up to rounding: for a level whose entry is strictly inside the clamp
    bounds in both, the entry for [h2] differs from [h2 / h1] times the
    entry for [h1] by at most [1/2 + h2 / (2 * h1)], with [1e-6] added for
    the rounding of the float delay. *)
Theorem half_cycle_scaling (levels : Z) (min_power h1 h2 : R) (level : Z) :
  (2 <= levels < 2 ^ 53)%Z -> (1 <= level <= levels)%Z ->
  0 < h1 -> 0 < h2 ->
  (MIN_DELAY_US < level_value levels min_power h1 level < MAX_DELAY_US)%Z ->
  (MIN_DELAY_US < level_value levels min_power h2 level < MAX_DELAY_US)%Z ->
  Rabs (IZR (level_value levels min_power h2 level)
        - h2 / h1 * IZR (level_value levels min_power h1 level))
  <= 1 / 2 + h2 / (2 * h1) + 1 / 10 ^ 6.
Proof.
  intros _ _ H1 H2 U1 U2.
  rewrite (level_value_unclamped _ _ _ _ U1), (level_value_unclamped _ _ _ _ U2).
  set (a := alpha_from_P (level_power levels min_power level)).
  pose proof PI_RGT_0 as Hpi.
  pose proof (py_round_error (a * h1 / PI)) as E1.
  pose proof (py_round_error (a * h2 / PI)) as E2.
  set (d1 := IZR (py_round (a * h1 / PI))) in *.
  set (d2 := IZR (py_round (a * h2 / PI))) in *.
  assert (Hq : 0 < h2 / h1) by (now apply Rdiv_lt_0_compat).
  assert (Ex : a * h2 / PI = h2 / h1 * (a * h1 / PI)) by (field; lra).
  assert (Eh : h2 / (2 * h1) = h2 / h1 * (1 / 2)) by (field; lra).
  rewrite Eh. apply Rabs_le.
  set (q := h2 / h1) in *. set (x1 := a * h1 / PI) in *.
  rewrite Ex in E2. split; nra.
Qed.

Lemma half_cycle_scaling_witness :
  Rabs (IZR (level_value 9 (5 / 100) (1000000 / (2 * 60)) 1)
        - 1000000 / (2 * 60) / 10000 * IZR (level_value 9 (5 / 100) 10000 1))
  <= 1 / 2 + 1000000 / (2 * 60) / (2 * 10000) + 1 / 10 ^ 6.
Proof.
  apply (half_cycle_scaling 9 (5 / 100) 10000 (1000000 / (2 * 60)) 1);
    [ split; [ lia | reflexivity ] | lia | lra | lra | | ].
  - rewrite (level_check_50Hz 1 7980) by (cbn [In]; tauto).
    unfold MIN_DELAY_US, MAX_DELAY_US. lia.
  - rewrite (level_check_60Hz 1 6650) by (cbn [In]; tauto).
    unfold MIN_DELAY_US, MAX_DELAY_US. lia.
Defined.

End HalfCycleScaling.
